(** * Android PDF export plugin (src/main.ts): a shallow embedding of the
    export pipeline -- folder naming, embed normalisation, per-image
    inlining, data-URI encoding, media sanitisation and the orchestration
    in [generatePdf] -- together with the properties stated about it. *)

From Stdlib Require Import ZArith Lia Ascii String Strings.Byte.
From stdpp Require Import base list gmap sets strings pretty.

Open Scope list_scope.

(** ** JavaScript strings

    A JavaScript string is a sequence of UTF-16 code units; we represent it
    as a [list N].  [js] turns an ASCII Rocq literal into such a sequence. *)

Abbreviation jsstring := (list N).

Fixpoint js (s : string) : jsstring :=
  match s with
  | EmptyString => []
  | String a s' => Ascii.N_of_ascii a :: js s'
  end.

Definition jseqb (a b : jsstring) : bool := bool_decide (a = b).

(** [s.startsWith(p)] *)
Fixpoint startsWith (s p : jsstring) : bool :=
  match p, s with
  | [], _ => true
  | c :: p', d :: s' => N.eqb c d && startsWith s' p'
  | _ :: _, [] => false
  end.

(** [s.split(c)[0]]: the prefix before the first [c]. *)
Fixpoint before_first (c : N) (s : jsstring) : jsstring :=
  match s with
  | [] => []
  | d :: s' => if N.eqb d c then [] else d :: before_first c s'
  end.

(** [s.split(c).pop()]: the suffix after the last [c] (the whole string
    when [c] does not occur). *)
Fixpoint after_last (c : N) (s : jsstring) : jsstring :=
  match s with
  | [] => []
  | d :: s' =>
      if existsb (N.eqb c) s' then after_last c s'
      else if N.eqb d c then s' else d :: s'
  end.

(** [String.prototype.toLowerCase] on ASCII code units.  Case mappings of
    non-ASCII code units are not modelled (they are the identity here); no
    Unicode lowercase mapping of a non-ASCII code unit is a single ASCII
    letter other than U+212A -> 'k'. *)
Definition lower_unit (c : N) : N :=
  if (65 <=? c)%N && (c <=? 90)%N then (c + 32)%N else c.

Definition toLowerCase (s : jsstring) : jsstring := map lower_unit s.

(** ** [createUniqueExportFolder]

    The vault adapter is modelled by the set of existing paths;
    [createFolder] adds a path to it. *)

Abbreviation store := (gset jsstring).

(** [c] is matched by [/[^a-z0-9]/gi]: the regexp is not in unicode mode, so
    only the ASCII letters and digits are excluded. *)
Definition is_alnum (c : N) : bool :=
  ((48 <=? c)%N && (c <=? 57)%N) || ((65 <=? c)%N && (c <=? 90)%N)
  || ((97 <=? c)%N && (c <=? 122)%N).

(** [basename.replace(/[^a-z0-9]/gi, '_')] *)
Definition sanitize_basename (basename : jsstring) : jsstring :=
  map (fun c => if is_alnum c then c else 95%N) basename.

(** [`${i}`] for a non-negative integer [i]. *)
Definition show_nat (i : nat) : jsstring := js (pretty i).

(** [`${folderName}-${i}`] *)
Definition suffixed (folderName : jsstring) (i : nat) : jsstring :=
  folderName ++ js "-" ++ show_nat i.

(** The loop [while (await exists(`${folderName}-${i}`)) i++;] started at
    [i], run for at most [fuel] iterations. *)
Fixpoint probe (S : store) (folderName : jsstring) (fuel i : nat) : nat :=
  match fuel with
  | O => i
  | Datatypes.S fuel' =>
      if bool_decide (suffixed folderName i ∈ S)
      then probe S folderName fuel' (Datatypes.S i) else i
  end.

(** [createUniqueExportFolder]: returns the folder name and the new store.
    The probing loop always stops within [size S + 1] iterations (proved
    below), so this fuel never runs out. *)
Definition createUniqueExportFolder (basename : jsstring) (S : store)
    : jsstring * store :=
  let safeBasename := sanitize_basename basename in
  let folderName := safeBasename ++ js "-Export" in
  if negb (bool_decide (folderName ∈ S)) then (folderName, {[folderName]} ∪ S)
  else
    let i := probe S folderName (Datatypes.S (size S)) 1 in
    let newFolderName := suffixed folderName i in
    (newFolderName, {[newFolderName]} ∪ S).

(** ** [decodeURIComponent] (ECMA-262 Decode with an empty reserved set)

    [None] stands for the [URIError] it throws. *)

Definition hex_val (c : N) : option N :=
  if (48 <=? c)%N && (c <=? 57)%N then Some (c - 48)%N
  else if (65 <=? c)%N && (c <=? 70)%N then Some (c - 55)%N
  else if (97 <=? c)%N && (c <=? 102)%N then Some (c - 87)%N
  else None.

(** One escape ["%XY"] at the head of the string. *)
Definition pct_byte (s : jsstring) : option (N * jsstring) :=
  match s with
  | pc :: h1 :: h2 :: rest =>
      if N.eqb pc 37 then
        match hex_val h1, hex_val h2 with
        | Some a, Some b => Some (a * 16 + b, rest)%N
        | _, _ => None
        end
      else None
  | _ => None
  end.

(** [n] further escapes, each a UTF-8 continuation byte [10xxxxxx]. *)
Fixpoint take_cont (n : nat) (s : jsstring) : option (list N * jsstring) :=
  match n with
  | O => Some ([], s)
  | Datatypes.S n' =>
      match pct_byte s with
      | Some (b, rest) =>
          if N.eqb (b / 64) 2 then
            match take_cont n' rest with
            | Some (bs, r) => Some (b :: bs, r)
            | None => None
            end
          else None
      | None => None
      end
  end.

(** The number of leading 1 bits of a byte [B >= 0x80]. *)
Definition utf8_len (b : N) : nat :=
  if (b <? 192)%N then 1 else if (b <? 224)%N then 2
  else if (b <? 240)%N then 3 else if (b <? 248)%N then 4 else 5.

(** The code point of a valid UTF-8 sequence (no overlong form, no
    surrogate, at most U+10FFFF). *)
Definition utf8_code_point (b : N) (cs : list N) : option N :=
  match cs with
  | [c1] =>
      let v := (N.land b 31 * 64 + N.land c1 63)%N in
      if (128 <=? v)%N then Some v else None
  | [c1; c2] =>
      let v := (N.land b 15 * 4096 + N.land c1 63 * 64 + N.land c2 63)%N in
      if (2048 <=? v)%N && negb ((55296 <=? v)%N && (v <=? 57343)%N)
      then Some v else None
  | [c1; c2; c3] =>
      let v := (N.land b 7 * 262144 + N.land c1 63 * 4096
                + N.land c2 63 * 64 + N.land c3 63)%N in
      if (65536 <=? v)%N && (v <=? 1114111)%N then Some v else None
  | _ => None
  end.

(** UTF-16 encoding of a code point. *)
Definition utf16 (v : N) : list N :=
  if (v <? 65536)%N then [v]
  else [(55296 + (v - 65536) / 1024)%N; (56320 + (v - 65536) mod 1024)%N].

(** The decoding loop; every iteration consumes at least one code unit, so
    [length s] iterations suffice. *)
Fixpoint decode_loop (fuel : nat) (s : jsstring) : option jsstring :=
  match fuel, s with
  | _, [] => Some []
  | O, _ :: _ => None
  | Datatypes.S fuel', c :: s' =>
      if negb (N.eqb c 37) then
        match decode_loop fuel' s' with
        | Some r => Some (c :: r)
        | None => None
        end
      else
        match pct_byte s with
        | None => None
        | Some (b, rest) =>
            if (b <? 128)%N then
              match decode_loop fuel' rest with
              | Some r => Some (b :: r)
              | None => None
              end
            else
              let n := utf8_len b in
              if (n =? 1) || (4 <? n) then None
              else
                match take_cont (n - 1) rest with
                | None => None
                | Some (cs, rest') =>
                    match utf8_code_point b cs with
                    | None => None
                    | Some v =>
                        match decode_loop fuel' rest' with
                        | Some r => Some (utf16 v ++ r)
                        | None => None
                        end
                    end
                end
        end
  end.

Definition decodeURIComponent (s : jsstring) : option jsstring :=
  decode_loop (length s) s.

(** ** Base64 and the data URL produced by [FileReader.readAsDataURL] *)

(** The base64 alphabet of RFC 4648. *)
Definition b64_char (i : N) : N :=
  if (i <? 26)%N then (65 + i)%N
  else if (i <? 52)%N then (71 + i)%N
  else if (i <? 62)%N then (i - 4)%N
  else if (i =? 62)%N then 43%N else 47%N.

Definition pad : N := 61%N.

Definition byte_val (b : byte) : N := Byte.to_N b.

(** Base64 encoding with padding, three bytes at a time. *)
Fixpoint base64_encode (bs : list byte) : jsstring :=
  match bs with
  | [] => []
  | [a] =>
      let n := (byte_val a * 65536)%N in
      [b64_char (n / 262144); b64_char ((n / 4096) mod 64); pad; pad]
  | [a; b] =>
      let n := (byte_val a * 65536 + byte_val b * 256)%N in
      [b64_char (n / 262144); b64_char ((n / 4096) mod 64);
       b64_char ((n / 64) mod 64); pad]
  | a :: b :: c :: rest =>
      let n := (byte_val a * 65536 + byte_val b * 256 + byte_val c)%N in
      [b64_char (n / 262144); b64_char ((n / 4096) mod 64);
       b64_char ((n / 64) mod 64); b64_char (n mod 64)] ++ base64_encode rest
  end.

(** The reader's side: the index of a base64 character. *)
Definition b64_index (c : N) : option N :=
  if (65 <=? c)%N && (c <=? 90)%N then Some (c - 65)%N
  else if (97 <=? c)%N && (c <=? 122)%N then Some (c - 71)%N
  else if (48 <=? c)%N && (c <=? 57)%N then Some (c + 4)%N
  else if (c =? 43)%N then Some 62%N
  else if (c =? 47)%N then Some 63%N else None.

(** RFC 4648 decoding of a padded payload into byte values. *)
Fixpoint base64_decode (s : jsstring) : option (list N) :=
  match s with
  | [] => Some []
  | c0 :: c1 :: c2 :: c3 :: rest =>
      match b64_index c0, b64_index c1 with
      | Some i0, Some i1 =>
          if (c2 =? pad)%N && (c3 =? pad)%N && bool_decide (rest = []) then
            Some [((i0 * 262144 + i1 * 4096) / 65536)%N]
          else if (c3 =? pad)%N && bool_decide (rest = []) then
            match b64_index c2 with
            | Some i2 =>
                let n := (i0 * 262144 + i1 * 4096 + i2 * 64)%N in
                Some [(n / 65536)%N; ((n / 256) mod 256)%N]
            | None => None
            end
          else
            match b64_index c2, b64_index c3, base64_decode rest with
            | Some i2, Some i3, Some r =>
                let n := (i0 * 262144 + i1 * 4096 + i2 * 64 + i3)%N in
                Some ((n / 65536)%N :: ((n / 256) mod 256)%N :: (n mod 256)%N :: r)
            | _, _, _ => None
            end
      | _, _ => None
      end
  | _ => None
  end.

(** [new Blob([buffer], { type })] (File API): a type holding a code unit
    outside U+0020..U+007E becomes the empty string, any other is
    ASCII-lowercased. *)
Record blob := { blob_bytes : list byte; blob_type : jsstring }.

Definition ascii_lowercase (s : jsstring) : jsstring := map lower_unit s.

Definition mkBlob (buffer : list byte) (type : jsstring) : blob :=
  {| blob_bytes := buffer;
     blob_type := if forallb (fun c => (32 <=? c)%N && (c <=? 126)%N) type
                  then ascii_lowercase type else [] |}.

(** The media type [readAsDataURL] writes for a blob type: browsers
    (Chromium, jsdom) write "application/octet-stream" for an empty type. *)
Definition data_url_type (t : jsstring) : jsstring :=
  if jseqb t [] then js "application/octet-stream" else t.

(** [readAsDataURL]: a base64 data URL, with the blob's type as media type. *)
Definition readAsDataURL (b : blob) : jsstring :=
  js "data:" ++ data_url_type (blob_type b) ++ js ";base64,"
  ++ base64_encode (blob_bytes b).

(** [arrayBufferToBase64Async]: [None] is a rejected promise, either from
    [reader.onerror] (the flag [reader_error]) or from an empty result. *)
Definition arrayBufferToBase64Async (reader_error : bool) (buffer : list byte)
    (mimeType : jsstring) : option jsstring :=
  if reader_error then None
  else
    let result := readAsDataURL (mkBlob buffer mimeType) in
    if bool_decide (result = []) then None else Some result.



(** ** The rendered tree

    An element has a tag name (lowercase local name), its content attributes
    in order, the declarations of its inline style ([el.style]) and its
    children. *)

Abbreviation attrs := (list (jsstring * jsstring)).

Inductive node : Type :=
| Element (tag : jsstring) (attributes : attrs) (style : attrs)
          (children : list node)
| Text (data : jsstring).

(** [getAttribute]: the value of the first attribute named [k]. *)
Fixpoint get_attr (k : jsstring) (a : attrs) : option jsstring :=
  match a with
  | [] => None
  | (k', v) :: a' => if jseqb k k' then Some v else get_attr k a'
  end.

(** [setAttribute]: replaces the value in place, or appends. *)
Fixpoint set_attr (k v : jsstring) (a : attrs) : attrs :=
  match a with
  | [] => [(k, v)]
  | (k', v') :: a' => if jseqb k k' then (k', v) :: a' else (k', v') :: set_attr k v a'
  end.

(** [removeAttribute] *)
Definition remove_attr (k : jsstring) (a : attrs) : attrs :=
  filter (fun p => negb (jseqb k p.1)) a.

(** ** One image task

    The state of a task is the image element it owns (its attributes and
    inline style) and the log of the operations it performs.  [None] as a
    result is an exception, i.e. a rejected promise. *)

Record img := { img_attrs : attrs; img_style : attrs }.

Inductive event : Type :=
| EvGetAttr (k : jsstring)
| EvSetAttr (k v : jsstring)
| EvRemoveAttr (k : jsstring)
| EvSetStyle (k v : jsstring)
| EvReadBinary (path : jsstring)
| EvFetch (url : jsstring).

Abbreviation task_state := (img * list event)%type.

Definition M (A : Type) : Type := task_state -> option A * task_state.

Definition ret {A} (a : A) : M A := fun st => (Some a, st).

Definition bind {A B} (m : M A) (k : A -> M B) : M B :=
  fun st => match m st with
            | (Some a, st') => k a st'
            | (None, st') => (None, st')
            end.

Global Instance M_ret : MRet M := @ret.
Global Instance M_bind : MBind M := fun A B k m => bind m k.

Definition throw {A} : M A := fun st => (None, st).

(** [try { m } catch { h }]: effects done before the throw are kept. *)
Definition try_catch {A} (m : M A) (h : M A) : M A :=
  fun st => match m st with
            | (Some a, st') => (Some a, st')
            | (None, st') => h st'
            end.

Definition of_option {A} (o : option A) : M A :=
  match o with Some a => ret a | None => throw end.

Definition log (e : event) : M unit :=
  fun '(i, l) => (Some tt, (i, l ++ [e])).

Definition getAttribute (k : jsstring) : M (option jsstring) :=
  fun '(i, l) => (Some (get_attr k (img_attrs i)), (i, l ++ [EvGetAttr k])).

Definition setAttribute (k v : jsstring) : M unit :=
  fun '(i, l) => (Some tt, ({| img_attrs := set_attr k v (img_attrs i);
                               img_style := img_style i |}, l ++ [EvSetAttr k v])).

Definition removeAttribute (k : jsstring) : M unit :=
  fun '(i, l) => (Some tt, ({| img_attrs := remove_attr k (img_attrs i);
                               img_style := img_style i |}, l ++ [EvRemoveAttr k])).

Definition setStyle (k v : jsstring) : M unit :=
  fun '(i, l) => (Some tt, ({| img_attrs := img_attrs i;
                               img_style := set_attr k v (img_style i) |},
                             l ++ [EvSetStyle k v])).

(** ** The host: vault, metadata cache and network

    The outcomes of the reads, fetches and conversions of the image task
    with index [n] are given by the functions applied to [n]. *)

Record tfile := { tf_path : jsstring; tf_name : jsstring; tf_extension : jsstring }.

Record response := { resp_arrayBuffer : list byte;
                     resp_headers : list (jsstring * jsstring) }.

Record host := {
  activeFilePath : option jsstring;
  getFirstLinkpathDest : jsstring -> jsstring -> option tfile;
  getFiles : list tfile;
  readBinary : nat -> tfile -> option (list byte);
  requestUrl : nat -> jsstring -> option response;
  readerError : nat -> bool }.

Definition readBinaryM (H : host) (n : nat) (f : tfile) : M (list byte) :=
  log (EvReadBinary (tf_path f)) ;; of_option (readBinary H n f).

Definition requestUrlM (H : host) (n : nat) (url : jsstring) : M response :=
  log (EvFetch url) ;; of_option (requestUrl H n url).

(** [getMimeType] *)
Definition getMimeType (extension : jsstring) : jsstring :=
  let e := toLowerCase extension in
  if jseqb e (js "jpg") || jseqb e (js "jpeg") then js "image/jpeg"
  else if jseqb e (js "webp") then js "image/webp"
  else if jseqb e (js "gif") then js "image/gif"
  else if jseqb e (js "svg") then js "image/svg+xml"
  else if jseqb e (js "bmp") then js "image/bmp"
  else js "image/png".

(** [x || 'image/png'] on an optional header value. *)
Definition or_png (v : option jsstring) : jsstring :=
  match v with
  | Some h => if jseqb h [] then js "image/png" else h
  | None => js "image/png"
  end.

(** The local lookup of [embedSingleImage]: [getFirstLinkpathDest] relative
    to the active file, then, for a non-empty link text, the first file of
    the vault with that name. *)
Definition find_file (H : host) (linktext : jsstring) : option tfile :=
  match getFirstLinkpathDest H linktext (default [] (activeFilePath H)) with
  | Some f => Some f
  | None =>
      if negb (jseqb linktext []) then
        List.find (fun f => jseqb (tf_name f) linktext) (getFiles H)
      else None
  end.

(** [embedSingleImage(img, index)] *)
Definition embedSingleImage (H : host) (index : nat) : M unit :=
  originalSrc ← getAttribute (js "src");
  match originalSrc with
  | None => ret tt
  | Some src =>
    if jseqb src [] || startsWith src (js "data:") then ret tt else
    try_catch (
      isEmbedAttr ← getAttribute (js "data-is-embed");
      let isEmbed := bool_decide (isEmbedAttr = Some (js "true")) in
      linktext ← (if isEmbed then ret src
                   else decodedSrc ← of_option (decodeURIComponent src);
                        let l := before_first 63 decodedSrc in
                        ret (after_last 47 l));
      let file := find_file H linktext in
      res ← (match file with
              | Some f =>
                  buffer ← readBinaryM H index f;
                  ret (Some buffer, getMimeType (tf_extension f))
              | None =>
                  if negb isEmbed && startsWith src (js "http") then
                    response ← requestUrlM H index src;
                    ret (Some (resp_arrayBuffer response),
                         or_png (get_attr (js "content-type") (resp_headers response)))
                  else ret (None, js "image/png")
              end);
      match res with
      | (Some buffer, mimeType) =>
          base64 ← of_option (arrayBufferToBase64Async (readerError H index)
                                 buffer mimeType);
          setAttribute (js "src") base64 ;;
          removeAttribute (js "srcset") ;;
          removeAttribute (js "data-src") ;;
          removeAttribute (js "data-is-embed") ;;
          removeAttribute (js "sizes")
      | (None, _) =>
          setAttribute (js "alt") (js "[Image Missing: " ++ src ++ js "]") ;;
          setStyle (js "border") (js "1px solid red")
      end)
    (ret tt)
  end.

Definition is_fetch (e : event) : bool :=
  match e with EvFetch _ => true | _ => false end.

(** Running the task of index [n] on an image element alone: the final
    element, the log, and whether the promise fulfils. *)
Definition run_embed (H : host) (n : nat) (i : img) : img * list event * bool :=
  let '(r, (i', l)) := embedSingleImage H n (i, []) in (i', l, bool_decide (r = Some tt)).

(** ** [processImages]

    Step 1: every [span.internal-embed] with an image extension is replaced
    by a fresh [img].  [querySelectorAll] lists the matching descendants of
    the container in document order; a marker inside a marker that was
    replaced is then detached, so replacing it does not change the tree. *)

Definition is_ascii_ws (c : N) : bool :=
  (c =? 32)%N || (c =? 9)%N || (c =? 10)%N || (c =? 12)%N || (c =? 13)%N.

(** The tokens of a class attribute. *)
Fixpoint class_tokens_aux (cur : jsstring) (s : jsstring) : list jsstring :=
  match s with
  | [] => if jseqb cur [] then [] else [rev cur]
  | c :: s' =>
      if is_ascii_ws c then (if jseqb cur [] then [] else [rev cur]) ++ class_tokens_aux [] s'
      else class_tokens_aux (c :: cur) s'
  end.

Definition has_class (cls : jsstring) (a : attrs) : bool :=
  match get_attr (js "class") a with
  | Some v => existsb (jseqb cls) (class_tokens_aux [] v)
  | None => false
  end.

Definition imageExtensions : list jsstring :=
  map js ["png"; "jpg"; "jpeg"; "gif"; "bmp"; "svg"; "webp"; "heic"]%string.

(** [src.split('.').pop()?.toLowerCase()] *)
Definition extension_of (src : jsstring) : jsstring := toLowerCase (after_last 46 src).

(** The [img] built for an embed with source [src]. *)
Definition embed_img (src : jsstring) : node :=
  Element (js "img") [(js "src", src); (js "data-is-embed", js "true")]
          [(js "max-width", js "100%")] [].

(** The replacement of one element by the loop body, if any. *)
Definition embed_replacement (tag : jsstring) (a : attrs) : option node :=
  if jseqb tag (js "span") && has_class (js "internal-embed") a then
    match get_attr (js "src") a with
    | Some src =>
        if jseqb src [] then None
        else
          let ext := extension_of src in
          if negb (jseqb ext []) && existsb (jseqb ext) imageExtensions
          then Some (embed_img src) else None
    | None => None
    end
  else None.

Fixpoint normalize_node (t : node) : node :=
  match t with
  | Text d => Text d
  | Element tag a st cs =>
      match embed_replacement tag a with
      | Some n => n
      | None => Element tag a st (map normalize_node cs)
      end
  end.

(** Step 2: [Promise.all] over the [img] descendants in document order, the
    task of index [n] running [embedSingleImage] on the [n]-th one.  Each
    task reads and writes only its own element, so running the tasks one
    after the other gives the same tree as any interleaving. *)
Fixpoint embed_node (H : host) (n : nat) (t : node) : node * nat * bool :=
  match t with
  | Text d => (Text d, n, true)
  | Element tag a st cs =>
      let '(a', st', ok, n') :=
        if jseqb tag (js "img") then
          let '(i', _, ok) := run_embed H n {| img_attrs := a; img_style := st |} in
          (img_attrs i', img_style i', ok, Datatypes.S n)
        else (a, st, true, n) in
      let fix go (n : nat) (cs : list node) : list node * nat * bool :=
        match cs with
        | [] => ([], n, true)
        | c :: cs' =>
            let '(c', n1, ok1) := embed_node H n c in
            let '(cs'', n2, ok2) := go n1 cs' in
            (c' :: cs'', n2, ok1 && ok2)
        end in
      let '(cs', n'', okc) := go n' cs in
      (Element tag a' st' cs', n'', ok && okc)
  end.

(** The same traversal over a list of siblings. *)
Fixpoint embed_list (H : host) (n : nat) (cs : list node) : list node * nat * bool :=
  match cs with
  | [] => ([], n, true)
  | c :: cs' =>
      let '(c', n1, ok1) := embed_node H n c in
      let '(cs'', n2, ok2) := embed_list H n1 cs' in
      (c' :: cs'', n2, ok1 && ok2)
  end.

(** [processImages(container)]: the new container and whether the
    promise fulfils.  Only descendants of the container are queried. *)
Definition normalizeEmbeds (container : node) : node :=
  match container with
  | Text d => Text d
  | Element tag a st cs => Element tag a st (map normalize_node cs)
  end.

Definition processImages (H : host) (container : node) : node * bool :=
  match normalizeEmbeds container with
  | Text d => (Text d, true)
  | Element tag a st cs =>
      let '(cs', _, ok) := embed_list H 0 cs in (Element tag a st cs', ok)
  end.

(** The [img] elements of a tree in document order. *)
Fixpoint images (t : node) : list img :=
  match t with
  | Text _ => []
  | Element tag a st cs =>
      (if jseqb tag (js "img") then [{| img_attrs := a; img_style := st |}] else [])
      ++ flat_map images cs
  end.

(** The [img] descendants of a container in document order, i.e. its
    [querySelectorAll('img')]. *)
Definition descendant_images (container : node) : list img :=
  match container with
  | Text _ => []
  | Element _ _ _ cs => flat_map images cs
  end.

(** ** [sanitizeElements] *)

Definition is_media (tag : jsstring) : bool :=
  jseqb tag (js "video") || jseqb tag (js "audio") || jseqb tag (js "iframe").

Definition placeholder_text : jsstring := js "[Media/Embed not supported in PDF Export]".

(** The [div] built for each media element. *)
Definition placeholder : node :=
  Element (js "div") []
    [(js "border", js "1px dashed #ccc"); (js "padding", js "10px");
     (js "color", js "#888"); (js "text-align", js "center")]
    [Text placeholder_text].

Fixpoint sanitize_node (t : node) : node :=
  match t with
  | Text d => Text d
  | Element tag a st cs =>
      if is_media tag then placeholder else Element tag a st (map sanitize_node cs)
  end.

Definition sanitizeElements (container : node) : node :=
  match container with
  | Text d => Text d
  | Element tag a st cs => Element tag a st (map sanitize_node cs)
  end.

(** The tag names of a tree in document order. *)
Fixpoint tags (t : node) : list jsstring :=
  match t with
  | Text _ => []
  | Element tag _ _ cs => tag :: flat_map tags cs
  end.

(** The node reached from [t] by a path of child indices. *)
Fixpoint subtree_at (t : node) (p : list nat) : option node :=
  match p with
  | [] => Some t
  | k :: p' =>
      match t with
      | Text _ => None
      | Element _ _ _ cs =>
          match cs !! k with Some c => subtree_at c p' | None => None end
      end
  end.

(** No node strictly above the end of the path is a media element. *)
Fixpoint path_clear (t : node) (p : list nat) : bool :=
  match p with
  | [] => true
  | k :: p' =>
      match t with
      | Text _ => true
      | Element tag _ _ cs =>
          negb (is_media tag) &&
          match cs !! k with Some c => path_clear c p' | None => true end
      end
  end.

(** ** [generatePdf]

    The page state is the list of the children of [document.body] (node
    identities), the next fresh identity and the notices shown.  The steps of
    the [try] block are the awaited calls; each either returns or throws,
    as given by [throws].  None of them adds or removes children of the
    body: rendering writes into the container. *)

Record page := { body : list nat; next_node : nat; notices : list jsstring }.

Definition PM (A : Type) : Type := page -> option A * page.

Global Instance PM_ret : MRet PM := fun A a p => (Some a, p).
Global Instance PM_bind : MBind PM := fun A B k m p =>
  match m p with
  | (Some a, p') => k a p'
  | (None, p') => (None, p')
  end.

Definition notice (msg : jsstring) : PM unit := fun p =>
  (Some tt, {| body := body p; next_node := next_node p; notices := notices p ++ [msg] |}).

(** [document.body.createDiv(...)]: a fresh element appended to the body. *)
Definition createDiv : PM nat := fun p =>
  (Some (next_node p), {| body := body p ++ [next_node p];
                          next_node := Datatypes.S (next_node p);
                          notices := notices p |}).

(** [document.body.removeChild(c)]: throws [NotFoundError] when [c] is not a
    child of the body. *)
Definition removeChild (c : nat) : PM unit := fun p =>
  if bool_decide (c ∈ body p) then
    (Some tt, {| body := filter (fun x => x <> c) (body p);
                 next_node := next_node p; notices := notices p |})
  else (None, p).

Definition try_catch_pm {A} (m : PM A) (h : PM A) : PM A := fun p =>
  match m p with
  | (Some a, p') => (Some a, p')
  | (None, p') => h p'
  end.

(** [try { m } finally { f }] *)
Definition try_finally_pm {A} (m : PM A) (f : PM unit) : PM A := fun p =>
  let '(r, p') := m p in
  match f p' with
  | (Some _, p'') => (r, p'')
  | (None, p'') => (None, p'')
  end.

Inductive stage : Type :=
| RenderMarkdown | CreateUniqueExportFolder | ProcessImages
| SanitizeElements | GenerateHtmlTemplate | SaveAndPrompt.

Definition step (throws : stage -> bool) (s : stage) : PM unit := fun p =>
  if throws s then (None, p) else (Some tt, p).

Definition generatePdf (activeFile : option tfile) (throws : stage -> bool) : PM unit :=
  match activeFile with
  | None => notice (js "No active file selected.")
  | Some _ =>
      notice (js "Generating HTML for printing...") ;;
      tempContainer ← createDiv;
      try_finally_pm
        (try_catch_pm
           (step throws RenderMarkdown ;;
            step throws CreateUniqueExportFolder ;;
            step throws ProcessImages ;;
            step throws SanitizeElements ;;
            step throws GenerateHtmlTemplate ;;
            step throws SaveAndPrompt)
           (notice (js "PDF Export failed. Check console for details.")))
        (removeChild tempContainer)
  end.

(** ** Sample inputs

    A vault with no files, with the given outcome of every fetch and no
    reader error. *)
Definition host_with (fetch : jsstring -> option response) : host :=
  {| activeFilePath := Some (js "Note.md");
     getFirstLinkpathDest := fun _ _ => None;
     getFiles := [];
     readBinary := fun _ _ => None;
     requestUrl := fun _ url => fetch url;
     readerError := fun _ => false |}.

(** Every fetch throws (network error, 404, ...). *)
Definition offline_host : host := host_with (fun _ => None).

(** Every fetch answers one zero byte with an empty content-type. *)
Definition empty_type_host : host :=
  host_with (fun _ => Some {| resp_arrayBuffer := [x00];
                              resp_headers := [(js "content-type", [])] |}).

Definition img_element (src : jsstring) : node :=
  Element (js "img") [(js "src", src)] [] [].

(** A vault holding one image "pic.png" of one zero byte, which every link
    text "pic.png" resolves to; every fetch throws and no reader error. *)
Definition pic : tfile :=
  {| tf_path := js "pic.png"; tf_name := js "pic.png"; tf_extension := js "png" |}.

Definition vault_host : host :=
  {| activeFilePath := Some (js "Note.md");
     getFirstLinkpathDest := fun linktext _ =>
       if jseqb linktext (js "pic.png") then Some pic else None;
     getFiles := [pic];
     readBinary := fun _ _ => Some [x00];
     requestUrl := fun _ _ => None;
     readerError := fun _ => false |}.

(** The tree with the attributes and inline style of every [img] element
    erased: what [processImages] may not change. *)
Fixpoint erase_imgs (t : node) : node :=
  match t with
  | Text d => Text d
  | Element tag a st cs =>
      if jseqb tag (js "img") then Element tag [] [] (map erase_imgs cs)
      else Element tag a st (map erase_imgs cs)
  end.

(** Induction on trees, with a hypothesis for every child. *)
Fixpoint node_ind' (P : node -> Prop)
    (fT : forall d, P (Text d))
    (fE : forall tag a st cs, Forall P cs -> P (Element tag a st cs))
    (t : node) : P t :=
  match t with
  | Text d => fT d
  | Element tag a st cs =>
      fE tag a st cs
        ((fix go (cs : list node) : Forall P cs :=
            match cs with
            | [] => Forall_nil_2 _
            | c :: cs' => Forall_cons_2 _ _ _ (node_ind' P fT fE c) (go cs')
            end) cs)
  end.

(** ** The earlier version of the plugin

    [src/main.ts] also holds an earlier [AndroidPdfPlugin] (from line 407):
    an HTML export that inlines only remote images, saves
    "{basename}.html" and offers to open it.  Its methods are embedded here
    under their own names. *)

Module Legacy.

(** [s.replace(pat, rep)] with a string pattern: the first occurrence of
    [pat] is replaced (the replacements used hold no [$] pattern). *)
Fixpoint replace_first (pat rep s : jsstring) {struct s} : jsstring :=
  if startsWith s pat then rep ++ drop (length pat) s
  else match s with
       | [] => []
       | c :: s' => c :: replace_first pat rep s'
       end.

(** [filename.replace('.html', ` (${i}).html`)] *)
Definition numbered (filename : jsstring) (i : nat) : jsstring :=
  replace_first (js ".html") (js " (" ++ show_nat i ++ js ").html") filename.

(** [while (await exists(safeName)) { safeName = ...; i++; }], run for at
    most [fuel] probes; [None] when it has not stopped by then. *)
Fixpoint save_loop (S : store) (filename safeName : jsstring) (i fuel : nat)
    : option jsstring :=
  match fuel with
  | O => None
  | Datatypes.S fuel' =>
      if bool_decide (safeName ∈ S)
      then save_loop S filename (numbered filename i) (Datatypes.S i) fuel'
      else Some safeName
  end.

(** [saveFileToVault(buffer, filename)]: the name written by [createBinary]
    and the new store. *)
Definition saveFileToVault (S : store) (filename : jsstring) (fuel : nat)
    : option (jsstring * store) :=
  match save_loop S filename filename 1 fuel with
  | Some safeName => Some (safeName, {[safeName]} ∪ S)
  | None => None
  end.

(** [binary += String.fromCharCode(bytes[i])] over the buffer. *)
Definition binary_string (bytes : list byte) : jsstring := map Byte.to_N bytes.

(** [window.btoa]: [None] is the [InvalidCharacterError] thrown on a code
    unit above U+00FF. *)
Definition btoa (s : jsstring) : option jsstring :=
  bs ← mapM Byte.of_N s; Some (base64_encode bs).

(** [arrayBufferToBase64(buffer)] *)
Definition arrayBufferToBase64 (buffer : list byte) : option jsstring :=
  btoa (binary_string buffer).

(** [x || 'image/jpeg'] on an optional header value. *)
Definition or_jpeg (v : option jsstring) : jsstring :=
  match v with
  | Some h => if jseqb h [] then js "image/jpeg" else h
  | None => js "image/jpeg"
  end.

(** The task [processImages] maps over each [img]: an absent or empty [src]
    and [data:] or [app://] sources are skipped; an [http] source is
    fetched and inlined, and a failure sets [alt]; any other source is left
    alone.  Setting [img.src] and [img.alt] sets the attributes. *)
Definition processImage (H : host) (index : nat) : M unit :=
  srcAttr ← getAttribute (js "src");
  match srcAttr with
  | None => ret tt
  | Some src =>
      if jseqb src [] || startsWith src (js "data:") || startsWith src (js "app://")
      then ret tt
      else if startsWith src (js "http") then
        try_catch
          (response ← requestUrlM H index src;
           base64 ← of_option (arrayBufferToBase64 (resp_arrayBuffer response));
           let contentType :=
             or_jpeg (get_attr (js "content-type") (resp_headers response)) in
           setAttribute (js "src") (js "data:" ++ contentType ++ js ";base64," ++ base64))
          (setAttribute (js "alt") (js "[Image Load Failed]"))
      else ret tt
  end.

(** Running the task of index [n] on an image element alone. *)
Definition run_task (H : host) (n : nat) (i : img) : img * list event * bool :=
  let '(r, (i', l)) := processImage H n (i, []) in (i', l, bool_decide (r = Some tt)).

(** [Promise.all] over the [img] descendants in document order, the task
    of index [n] running on the [n]-th one. *)
Fixpoint process_node (H : host) (n : nat) (t : node) : node * nat * bool :=
  match t with
  | Text d => (Text d, n, true)
  | Element tag a st cs =>
      let '(a', st', ok, n') :=
        if jseqb tag (js "img") then
          let '(i', _, ok) := run_task H n {| img_attrs := a; img_style := st |} in
          (img_attrs i', img_style i', ok, Datatypes.S n)
        else (a, st, true, n) in
      let fix go (n : nat) (cs : list node) : list node * nat * bool :=
        match cs with
        | [] => ([], n, true)
        | c :: cs' =>
            let '(c', n1, ok1) := process_node H n c in
            let '(cs'', n2, ok2) := go n1 cs' in
            (c' :: cs'', n2, ok1 && ok2)
        end in
      let '(cs', n'', okc) := go n' cs in
      (Element tag a' st' cs', n'', ok && okc)
  end.

Fixpoint process_list (H : host) (n : nat) (cs : list node) : list node * nat * bool :=
  match cs with
  | [] => ([], n, true)
  | c :: cs' =>
      let '(c', n1, ok1) := process_node H n c in
      let '(cs'', n2, ok2) := process_list H n1 cs' in
      (c' :: cs'', n2, ok1 && ok2)
  end.

(** [processImages(container)]: the new container and whether the promise
    fulfils. *)
Definition processImages (H : host) (container : node) : node * bool :=
  match container with
  | Text d => (Text d, true)
  | Element tag a st cs =>
      let '(cs', _, ok) := process_list H 0 cs in (Element tag a st cs', ok)
  end.

(** [sanitizeElements]: the placeholder has no [text-align] and a shorter
    text. *)
Definition placeholder_text : jsstring := js "[Media/Embed not supported in PDF]".

Definition placeholder : node :=
  Element (js "div") []
    [(js "border", js "1px dashed #ccc"); (js "padding", js "10px");
     (js "color", js "#888")]
    [Text placeholder_text].

Fixpoint sanitize_node (t : node) : node :=
  match t with
  | Text d => Text d
  | Element tag a st cs =>
      if is_media tag then placeholder else Element tag a st (map sanitize_node cs)
  end.

Definition sanitizeElements (container : node) : node :=
  match container with
  | Text d => Text d
  | Element tag a st cs => Element tag a st (map sanitize_node cs)
  end.

(** [generatePdf]: the awaited steps that may throw, each in its own
    [try] that shows a notice and rethrows; the outer [catch] is silent. *)
Inductive stage : Type := RenderMarkdown | ProcessImages | CreateHtml.

Definition step (throws : stage -> bool) (s : stage) : PM unit := fun p =>
  if throws s then (None, p) else (Some tt, p).

Definition throw_pm {A} : PM A := fun p => (None, p).

(** The outcome of [saveFileToVault] in step 5: the saved path, or [None]
    when it throws. *)
Definition of_option_pm {A} (o : option A) : PM A := fun p => (o, p).

Definition generatePdf (activeFile : option tfile) (throws : stage -> bool)
    (saved : option jsstring) : PM unit :=
  match activeFile with
  | None => notice (js "No active file selected.")
  | Some _ =>
      notice (js "Generating HTML for printing...") ;;
      tempContainer ← createDiv;
      try_finally_pm
        (try_catch_pm
           (try_catch_pm (step throws RenderMarkdown)
              (notice (js "Failed to render Markdown content.") ;; throw_pm) ;;
            try_catch_pm (step throws ProcessImages)
              (notice (js "Failed to process images.") ;; throw_pm) ;;
            try_catch_pm (step throws CreateHtml)
              (notice (js "Failed to generate HTML structure.") ;; throw_pm) ;;
            try_catch_pm
              (savedPath ← of_option_pm saved;
               notice (js "Exported: " ++ savedPath))
              (notice (js "Failed to save the HTML file.") ;; throw_pm))
           (mret tt))
        (removeChild tempContainer)
  end.

End Legacy.

(** * Properties *)

(** ** Folder naming *)

Example createUniqueExportFolder_ex :
  fst (createUniqueExportFolder (js "My Note") ∅) = js "My_Note-Export".
Proof. reflexivity. Qed.


Lemma js_app (a b : string) : js (a +:+ b) = js a ++ js b.
Proof. induction a as [|c a IH]; simpl; [done|by rewrite IH]. Qed.

Lemma js_inj (a b : string) : js a = js b -> a = b.
Proof.
  revert b; induction a as [|c a IH]; intros [|d b]; simpl; try done.
  intros H. injection H as Hcd Hab.
  rewrite <-(Ascii.ascii_N_embedding c), <-(Ascii.ascii_N_embedding d), Hcd.
  by rewrite (IH b Hab).
Qed.

Lemma suffixed_inj (f : jsstring) (i j : nat) :
  suffixed f i = suffixed f j -> i = j.
Proof.
  unfold suffixed, show_nat. intros H.
  apply app_inv_head in H. apply app_inv_head in H.
  apply js_inj in H. by apply (inj pretty).
Qed.

Lemma probe_spec (S : store) (f : jsstring) (fuel i : nat) :
  let j := probe S f fuel i in
  i <= j /\ (forall k, i <= k < j -> suffixed f k ∈ S) /\
  (suffixed f j ∉ S \/ j = i + fuel).
Proof.
  revert i; induction fuel as [|fuel IH]; intros i; simpl.
  - split; [lia|]. split; [intros; lia|]. right; lia.
  - case_bool_decide as Hin.
    + destruct (IH (Datatypes.S i)) as (Hle & Hall & Hend).
      split; [lia|]. split.
      * intros k Hk. destruct (decide (k = i)) as [->|Hne]; [done|].
        apply Hall; lia.
      * destruct Hend as [Hend|Hend]; [by left|right; lia].
    + split; [lia|]. split; [intros; lia|]. by left.
Qed.

(** Among [size S + 1] distinct candidates one is missing from [S]. *)
Lemma probe_finds (S : store) (f : jsstring) :
  suffixed f (probe S f (Datatypes.S (size S)) 1) ∉ S.
Proof.
  destruct (probe_spec S f (Datatypes.S (size S)) 1) as (_ & Hall & [Hend|Hend]);
    [done|].
  exfalso.
  set (l := map (suffixed f) (seq 1 (Datatypes.S (size S)))).
  assert (Hnd : NoDup l).
  { apply NoDup_fmap_2_strong; [intros ?? _ _; apply suffixed_inj|]. apply NoDup_seq. }
  assert (Hincl : incl l (elements S)).
  { intros x Hx. apply list_elem_of_In. apply elem_of_elements.
    apply list_elem_of_In in Hx. unfold l in Hx.
    apply list_elem_of_fmap in Hx as (k & -> & Hk).
    apply elem_of_seq in Hk. apply Hall. lia. }
  apply NoDup_ListNoDup in Hnd.
  pose proof (NoDup_incl_length Hnd Hincl) as Hlen.
  unfold l in Hlen. rewrite length_map, length_seq in Hlen.
  unfold size, set_size in Hlen. simpl in Hlen. lia.
Qed.

(** C3: the export folder is named "{sanitized basename}-Export", with "-{n}"
    appended for the smallest positive [n] giving a free name when that is
    taken; the name returned is created and was not in the store before, so
    two successive exports yield "X-Export" then "X-Export-1". *)
Theorem createUniqueExportFolder_spec (basename : jsstring) (S : store) :
  let folder := sanitize_basename basename ++ js "-Export" in
  let '(name, S') := createUniqueExportFolder basename S in
  (forall k c, basename !! k = Some c ->
     sanitize_basename basename !! k =
       Some (if is_alnum c then c else Ascii.N_of_ascii "_"%char)) /\
  (forall c, is_alnum c = true <->
     (48 <= c <= 57 \/ 65 <= c <= 90 \/ 97 <= c <= 122)%N) /\
  S' = {[name]} ∪ S /\ (name ∉ S) /\
  (folder ∉ S -> name = folder) /\
  (folder ∈ S -> exists n, 1 <= n /\ name = suffixed folder n /\
     forall m, 1 <= m < n -> suffixed folder m ∈ S) /\
  (folder ∉ S -> suffixed folder 1 ∉ S ->
     fst (createUniqueExportFolder basename S') = suffixed folder 1).
Proof.
  simpl. unfold createUniqueExportFolder.
  set (folder := sanitize_basename basename ++ js "-Export").
  assert (Hsan : forall k c, basename !! k = Some c ->
     sanitize_basename basename !! k =
       Some (if is_alnum c then c else Ascii.N_of_ascii "_"%char)).
  { intros k c Hk. unfold sanitize_basename. by rewrite list_lookup_fmap, Hk. }
  assert (Hal : forall c, is_alnum c = true <->
     (48 <= c <= 57 \/ 65 <= c <= 90 \/ 97 <= c <= 122)%N).
  { intros c. unfold is_alnum.
    rewrite !orb_true_iff, !andb_true_iff, !N.leb_le. lia. }
  case_bool_decide as Hf; simpl.
  - destruct (probe_spec S folder (Datatypes.S (size S)) 1) as (Hle & Hall & _).
    pose proof (probe_finds S folder) as Hfree.
    split; [done|]. split; [done|]. split; [done|]. split; [done|].
    split; [done|]. split.
    + intros _. eexists; split; [exact Hle|]. split; [done|]. exact Hall.
    + done.
  - split; [done|]. split; [done|]. split; [done|]. split; [done|].
    split; [done|]. split; [done|].
    intros _ H1.
    rewrite (bool_decide_true (folder ∈ _)) by set_solver.
    cbn [negb fst probe].
    rewrite bool_decide_false; [done|].
    intros [Heq|Hin]%elem_of_union; [|done].
    apply elem_of_singleton in Heq.
    apply (f_equal (@length N)) in Heq. unfold suffixed in Heq.
    rewrite !length_app in Heq. simpl in Heq. lia.
Qed.

(** ** Release of the render container *)

(** C8: whatever step of the export throws, [generatePdf] removes the
    off-screen container it appended to [document.body]: no exception
    escapes and the body has exactly its children from before the export
    (so the container, a fresh node, is not among them). *)
Theorem generatePdf_releases_container (activeFile : option tfile)
    (throws : stage -> bool) (p : page)
    (Hfresh : forall x, x ∈ body p -> x < next_node p) :
  let '(r, p') := generatePdf activeFile throws p in
  r = Some tt /\ body p' = body p /\
  (activeFile <> None -> next_node p ∉ body p').
Proof.
  destruct activeFile as [f|]; [|cbn -[js]; auto].
  assert (Hf : filter (fun x => x <> next_node p) (body p ++ [next_node p]) = body p).
  { rewrite filter_app, filter_cons_False by (intros Hn; by apply Hn).
    change (filter (fun x => x <> next_node p) []) with (@nil nat).
    rewrite app_nil_r.
    assert (Hl : forall l : list nat, (forall x, x ∈ l -> x < next_node p) ->
              filter (fun x => x <> next_node p) l = l).
    { induction l as [|y l IH]; intros Hl; [done|].
      rewrite filter_cons_True by (pose proof (Hl y ltac:(set_solver)); lia).
      f_equal. apply IH. intros x Hx. apply Hl. set_solver. }
    by apply Hl. }
  assert (Hin : next_node p ∈ body p ++ [next_node p]) by set_solver.
  assert (Hout : next_node p ∉ body p) by (intros Hx%Hfresh; lia).
  unfold generatePdf, mbind, PM_bind, notice, createDiv, try_finally_pm,
    try_catch_pm, step, removeChild.
  destruct (throws RenderMarkdown), (throws CreateUniqueExportFolder),
    (throws ProcessImages), (throws SanitizeElements),
    (throws GenerateHtmlTemplate), (throws SaveAndPrompt);
    cbn -[js filter]; rewrite (bool_decide_true _ Hin); cbn -[js filter];
    rewrite Hf; auto.
Qed.

(** ** Base64 *)

Lemma b64_index_char (i : N) : (i < 64)%N -> b64_index (b64_char i) = Some i.
Proof.
  intros Hi.
  assert (Hall : forallb (fun k => bool_decide (b64_index (b64_char k) = Some k))
                   (map N.of_nat (seq 0 64)) = true) by (vm_compute; reflexivity).
  rewrite forallb_forall in Hall.
  apply (bool_decide_eq_true_1 _), Hall, in_map_iff.
  exists (N.to_nat i). split; [lia|]. apply in_seq. lia.
Qed.

Lemma b64_char_not_pad (i : N) : (b64_char i =? pad)%N = false.
Proof.
  unfold b64_char, pad.
  destruct (N.ltb_spec i 26); [apply N.eqb_neq; lia|].
  destruct (N.ltb_spec i 52); [apply N.eqb_neq; lia|].
  destruct (N.ltb_spec i 62); [apply N.eqb_neq; lia|].
  destruct (N.eqb_spec i 62); done.
Qed.

Lemma split24 (n : N) :
  (n = n / 262144 * 262144 + ((n / 4096) mod 64) * 4096
       + ((n / 64) mod 64) * 64 + n mod 64)%N.
Proof.
  pose proof (N.div_mod n 64 ltac:(lia)) as E1.
  pose proof (N.div_mod (n / 64) 64 ltac:(lia)) as E2.
  pose proof (N.div_mod (n / 4096) 64 ltac:(lia)) as E3.
  rewrite N.Div0.div_div in E2, E3.
  change (64 * 64)%N with 4096%N in E2, E3.
  change (4096 * 64)%N with 262144%N in E3.
  lia.
Qed.

Lemma byte_bound (b : byte) : (byte_val b < 256)%N.
Proof. unfold byte_val. pose proof (Byte.to_N_bounded b). lia. Qed.

Lemma six_bits (n : N) : (n / 262144 < 64)%N -> (n / 262144 < 64 /\ (n / 4096) mod 64 < 64
  /\ (n / 64) mod 64 < 64 /\ n mod 64 < 64)%N.
Proof. intros H. repeat split; try lia; apply N.mod_lt; lia. Qed.

Lemma bytes3 (a b c : N) : (a < 256 -> b < 256 -> c < 256 ->
  let n := a * 65536 + b * 256 + c in
  n / 65536 = a /\ (n / 256) mod 256 = b /\ n mod 256 = c /\ n / 262144 < 64)%N.
Proof.
  intros Ha Hb Hc n. subst n. split; [|split; [|split]].
  - zify; Z.div_mod_to_equations; lia.
  - replace ((a * 65536 + b * 256 + c) / 256)%N with (b + a * 256)%N
      by (zify; Z.div_mod_to_equations; lia).
    rewrite N.Div0.mod_add. apply N.mod_small. lia.
  - replace (a * 65536 + b * 256 + c)%N with (c + (a * 256 + b) * 256)%N by lia.
    rewrite N.Div0.mod_add. apply N.mod_small. lia.
  - zify; Z.div_mod_to_equations; lia.
Qed.

Lemma low_zero (n m : N) : (n = m * 256 -> n mod 64 = 0)%N.
Proof.
  intros ->. replace (m * 256)%N with (m * 4 * 64)%N by lia. apply N.Div0.mod_mul.
Qed.

Lemma low_zero2 (n m : N) : (n = m * 65536 -> (n / 64) mod 64 = 0 /\ n mod 64 = 0)%N.
Proof.
  intros ->. split;
    [|replace (m * 65536)%N with (m * 1024 * 64)%N by lia; apply N.Div0.mod_mul].
  replace (m * 65536 / 64)%N with (m * 16 * 64)%N by (zify; Z.div_mod_to_equations; lia).
  apply N.Div0.mod_mul.
Qed.

(** Decoding the base64 text of a byte sequence gives back its bytes. *)
Lemma base64_roundtrip (bs : list byte) :
  base64_decode (base64_encode bs) = Some (map byte_val bs).
Proof.
  induction bs as [[|a [|b [|c rest]]] IH] using (induction_ltof1 _ (@length byte));
    unfold ltof in IH.
  - done.
  - pose proof (byte_bound a) as Ha.
    assert (E4 : (byte_val a * 65536 / 262144 < 64)%N)
      by (zify; Z.div_mod_to_equations; lia).
    destruct (six_bits _ E4) as (B0 & B1 & _).
    destruct (low_zero2 (byte_val a * 65536) (byte_val a) eq_refl) as [Z2 Z3].
    pose proof (split24 (byte_val a * 65536)) as S. rewrite Z2, Z3 in S.
    cbn [base64_encode base64_decode].
    rewrite !b64_index_char by done. cbn.
    do 2 f_equal.
    replace (byte_val a * 65536 / 262144 * 262144
             + byte_val a * 65536 / 4096 mod 64 * 4096)%N
      with (byte_val a * 65536)%N by lia.
    apply N.div_mul. lia.
  - pose proof (byte_bound a) as Ha. pose proof (byte_bound b) as Hb.
    destruct (bytes3 (byte_val a) (byte_val b) 0 Ha Hb ltac:(lia)) as (E1 & E2 & _ & E4).
    rewrite !N.add_0_r in E1, E2, E4.
    destruct (six_bits _ E4) as (B0 & B1 & B2 & _).
    pose proof (low_zero (byte_val a * 65536 + byte_val b * 256)
                  (byte_val a * 256 + byte_val b) ltac:(lia)) as Z3.
    pose proof (split24 (byte_val a * 65536 + byte_val b * 256)) as S.
    rewrite Z3, N.add_0_r in S.
    simpl. rewrite !b64_index_char by done. rewrite b64_char_not_pad. simpl.
    rewrite <-S, E1, E2. done.
  - pose proof (byte_bound a) as Ha. pose proof (byte_bound b) as Hb.
    pose proof (byte_bound c) as Hc.
    destruct (bytes3 (byte_val a) (byte_val b) (byte_val c) Ha Hb Hc)
      as (E1 & E2 & E3 & E4).
    destruct (six_bits _ E4) as (B0 & B1 & B2 & B3).
    pose proof (split24 (byte_val a * 65536 + byte_val b * 256 + byte_val c)) as S.
    cbn [base64_encode app base64_decode].
    rewrite !b64_index_char by done. rewrite !b64_char_not_pad. simpl.
    rewrite IH by (simpl; lia). rewrite <-S, E1, E2, E3. done.
Qed.






(** ** The image tasks *)

Lemma embed_node_Element (H : host) (n : nat) tag a st cs :
  embed_node H n (Element tag a st cs) =
  let '(a', st', ok, n') :=
    if jseqb tag (js "img") then
      let '(i', _, ok) := run_embed H n {| img_attrs := a; img_style := st |} in
      (img_attrs i', img_style i', ok, Datatypes.S n)
    else (a, st, true, n) in
  let '(cs', n'', okc) := embed_list H n' cs in
  (Element tag a' st' cs', n'', ok && okc).
Proof.
  cbn [embed_node].
  destruct (if jseqb tag (js "img") then
      let '(i', _, ok) := run_embed H n {| img_attrs := a; img_style := st |} in
      (img_attrs i', img_style i', ok, Datatypes.S n)
    else (a, st, true, n)) as [[[a' st'] ok] n'].
  match goal with
  | |- context [?F n' cs] =>
      assert (E : forall m, F m cs = embed_list H m cs);
      [induction cs as [|c cs IH]; intros m; [done|]; simpl;
       destruct (embed_node H m c) as [[c' n1] ok1]; by rewrite IH|]
  end.
  by rewrite E.
Qed.

Lemma try_catch_fulfils (m : M unit) (st : task_state) :
  fst (try_catch m (ret tt) st) = Some tt.
Proof. unfold try_catch. by destruct (m st) as [[[]|] st']. Qed.

Lemma embedSingleImage_fulfils (H : host) (n : nat) (st : task_state) :
  fst (embedSingleImage H n st) = Some tt.
Proof.
  destruct st as [i l].
  unfold embedSingleImage, mbind, M_bind, bind, getAttribute. cbn -[js jseqb].
  destruct (get_attr _ _) as [src|]; [|done].
  destruct (jseqb src [] || startsWith src (js "data:")); [done|].
  apply try_catch_fulfils.
Qed.

Lemma run_embed_ok (H : host) (n : nat) (i : img) : (run_embed H n i).2 = true.
Proof.
  unfold run_embed. pose proof (embedSingleImage_fulfils H n (i, [])) as E.
  destruct (embedSingleImage H n (i, [])) as [r [i' l]]. simpl in *. subst r.
  by apply bool_decide_eq_true.
Qed.

Lemma embed_node_spec (H : host) (t : node) : forall n,
  let '(t', n', ok) := embed_node H n t in
  images t' = imap (fun k i => (run_embed H (n + k) i).1.1) (images t) /\
  n' = n + length (images t) /\ ok = true.
Proof.
  induction t as [d|tag a st cs IHcs] using node_ind'; intros n; [simpl; auto with lia|].
  rewrite embed_node_Element.
  assert (Hl : forall m, let '(cs', m', okc) := embed_list H m cs in
     flat_map images cs' =
       imap (fun k i => (run_embed H (m + k) i).1.1) (flat_map images cs) /\
     m' = m + length (flat_map images cs) /\ okc = true).
  { clear -IHcs. induction IHcs as [|c cs Hc _ IH]; intros m; [simpl; auto with lia|].
    simpl. specialize (Hc m).
    destruct (embed_node H m c) as [[c' n1] ok1]. destruct Hc as (Ec & -> & ->).
    specialize (IH (m + length (images c))).
    destruct (embed_list H _ cs) as [[cs' n2] ok2]. destruct IH as (Ecs & -> & ->).
    simpl. rewrite Ec, Ecs, imap_app. split; [|split; [rewrite length_app; lia|done]].
    f_equal. apply imap_ext. intros k x _. by rewrite Nat.add_assoc. }
  unfold images at 2. fold images.
  destruct (jseqb tag (js "img")) eqn:Etag.
  - destruct (run_embed H n {| img_attrs := a; img_style := st |}) as [[i' lg] ok] eqn:Er.
    specialize (Hl (Datatypes.S n)).
    destruct (embed_list H _ cs) as [[cs' n2] okc]. destruct Hl as (Ecs & -> & ->).
    cbn -[js jseqb run_embed]. rewrite Etag, Nat.add_0_r, Er. cbn -[js jseqb run_embed].
    destruct i'. simpl. rewrite Ecs.
    split; [f_equal; apply imap_ext; intros k x _; simpl; do 3 f_equal; lia|].
    split; [lia|]. pose proof (run_embed_ok H n {| img_attrs := a; img_style := st |}) as Ok.
    rewrite Er in Ok. simpl in Ok. by subst ok.
  - specialize (Hl n).
    destruct (embed_list H _ cs) as [[cs' n2] okc]. destruct Hl as (Ecs & -> & ->).
    cbn -[js jseqb]. rewrite Etag. auto.
Qed.

Lemma embed_list_spec (H : host) (cs : list node) : forall m,
  let '(cs', m', okc) := embed_list H m cs in
  flat_map images cs' =
    imap (fun k i => (run_embed H (m + k) i).1.1) (flat_map images cs) /\
  m' = m + length (flat_map images cs) /\ okc = true.
Proof.
  induction cs as [|c cs IH]; intros m; [simpl; auto with lia|].
  simpl. pose proof (embed_node_spec H c m) as Hc.
  destruct (embed_node H m c) as [[c' n1] ok1]. destruct Hc as (Ec & -> & ->).
  specialize (IH (m + length (images c))).
  destruct (embed_list H _ cs) as [[cs' n2] ok2]. destruct IH as (Ecs & -> & ->).
  simpl. rewrite Ec, Ecs, imap_app. split; [|split; [rewrite length_app; lia|done]].
  f_equal. apply imap_ext. intros k x _. by rewrite Nat.add_assoc.
Qed.

Lemma processImages_images (H : host) (container : node) :
  snd (processImages H container) = true /\
  descendant_images (fst (processImages H container)) =
    imap (fun k i => (run_embed H k i).1.1) (descendant_images (normalizeEmbeds container)).
Proof.
  unfold processImages. destruct (normalizeEmbeds container) as [tag a st cs|d];
    [|done].
  pose proof (embed_list_spec H cs 0) as Hl.
  destruct (embed_list H 0 cs) as [[cs' m] ok]. destruct Hl as (E & _ & ->).
  split; [done|]. simpl. exact E.
Qed.

(** C2: no image task rejects, whatever the outcomes of its reads, fetches
    and conversions; the [Promise.all] of [processImages] fulfils; and the
    [k]-th image of the result is what task [k] makes of the [k]-th image
    on its own, so a failing image never keeps a sibling from being
    inlined. *)
Theorem processImages_isolation (H : host) (container : node) :
  (forall n st, fst (embedSingleImage H n st) = Some tt) /\
  snd (processImages H container) = true /\
  descendant_images (fst (processImages H container)) =
    imap (fun k i => (run_embed H k i).1.1) (descendant_images (normalizeEmbeds container)).
Proof.
  split; [apply embedSingleImage_fulfils|]. apply processImages_images.
Qed.

(** ** Inline images are left alone *)

Lemma embed_replacement_img (a : attrs) : embed_replacement (js "img") a = None.
Proof. reflexivity. Qed.

Lemma embed_replacement_some (tag : jsstring) (a : attrs) (m : node) :
  embed_replacement tag a = Some m -> exists src, m = embed_img src.
Proof.
  unfold embed_replacement.
  destruct (jseqb tag (js "span") && has_class (js "internal-embed") a); [|done].
  destruct (get_attr (js "src") a) as [src|]; [|done].
  destruct (jseqb src []); [done|].
  destruct (_ && _); [|done]. intros [= <-]. by exists src.
Qed.

Lemma normalize_node_idem (t : node) : normalize_node (normalize_node t) = normalize_node t.
Proof.
  induction t as [d|tag a st cs IH] using node_ind'; [done|].
  cbn [normalize_node]. destruct (embed_replacement tag a) as [m|] eqn:E.
  - apply embed_replacement_some in E as [src ->]. reflexivity.
  - cbn [normalize_node]. rewrite E. f_equal.
    rewrite map_map. apply map_ext_in. intros c Hc.
    rewrite Forall_forall in IH. apply IH. by apply list_elem_of_In.
Qed.

Lemma normalize_node_fixed_children tag a st cs :
  normalize_node (Element tag a st cs) = Element tag a st cs ->
  embed_replacement tag a = None /\ map normalize_node cs = cs.
Proof.
  cbn [normalize_node]. destruct (embed_replacement tag a) as [m|] eqn:E.
  - intros Em. subst m. pose proof E as E'.
    apply embed_replacement_some in E' as [src E'].
    unfold embed_img in E'. injection E' as Etag _ _ Ecs. subst tag cs.
    by rewrite embed_replacement_img in E.
  - intros [= ->]. done.
Qed.

Lemma embed_keeps_normal (H : host) (t : node) : forall n,
  normalize_node t = t -> normalize_node (embed_node H n t).1.1 = (embed_node H n t).1.1.
Proof.
  induction t as [d|tag a st cs IH] using node_ind'; intros n Hn; [done|].
  apply normalize_node_fixed_children in Hn as [Er Hcs].
  rewrite embed_node_Element.
  assert (Hl : forall m, map normalize_node (embed_list H m cs).1.1 = (embed_list H m cs).1.1).
  { clear -IH Hcs. revert Hcs. induction IH as [|c cs Hc _ IHl]; intros Hcs m; [done|].
    simpl in Hcs. injection Hcs as Hc1 Hcs1. simpl.
    specialize (Hc m Hc1).
    destruct (embed_node H m c) as [[c' n1] ok1]. simpl in Hc.
    specialize (IHl Hcs1 n1).
    destruct (embed_list H n1 cs) as [[cs' n2] ok2]. simpl in *. by rewrite Hc, IHl. }
  destruct (jseqb tag (js "img")) eqn:Etag.
  - destruct (run_embed _ _ _) as [[i' lg] ok].
    specialize (Hl (Datatypes.S n)).
    destruct (embed_list H _ cs) as [[cs' n2] okc]. simpl in *.
    apply bool_decide_eq_true in Etag. subst tag.
    rewrite embed_replacement_img. by rewrite Hl.
  - specialize (Hl n).
    destruct (embed_list H _ cs) as [[cs' n2] okc]. simpl in *.
    rewrite Er. by rewrite Hl.
Qed.

Lemma embed_list_keeps_normal (H : host) (cs : list node) (m : nat) :
  map normalize_node cs = cs ->
  map normalize_node (embed_list H m cs).1.1 = (embed_list H m cs).1.1.
Proof.
  revert m. induction cs as [|c cs IH]; intros m Hcs; [done|].
  simpl in Hcs. injection Hcs as Hc Hcs. simpl.
  pose proof (embed_keeps_normal H c m Hc) as Ec.
  destruct (embed_node H m c) as [[c' n1] ok1]. simpl in Ec.
  specialize (IH n1 Hcs).
  destruct (embed_list H n1 cs) as [[cs' n2] ok2]. simpl in *. by rewrite Ec, IH.
Qed.

(** After one run of [processImages] no embed marker is left to normalise. *)
Lemma normalizeEmbeds_processed (H : host) (t : node) :
  normalizeEmbeds (fst (processImages H t)) = fst (processImages H t).
Proof.
  destruct t as [tag a st cs|d]; [|done].
  unfold processImages. cbn [normalizeEmbeds].
  pose proof (embed_list_keeps_normal H (map normalize_node cs) 0) as E.
  rewrite map_map in E. specialize (E (map_ext _ _ normalize_node_idem cs)).
  destruct (embed_list H 0 _) as [[cs' m] ok]. simpl in *. by rewrite E.
Qed.

Lemma embedSingleImage_inline (H : host) (n : nat) (i : img) (l : list event) (src : jsstring) :
  get_attr (js "src") (img_attrs i) = Some src ->
  startsWith src (js "data:") = true ->
  embedSingleImage H n (i, l) = (Some tt, (i, l ++ [EvGetAttr (js "src")])).
Proof.
  intros Hs Hd. unfold embedSingleImage, mbind, M_bind, bind, getAttribute.
  cbn -[js jseqb startsWith].
  rewrite Hs, Hd, orb_true_r. reflexivity.
Qed.

(** C4: on an image whose [src] starts with [data:], [embedSingleImage]
    reads [src] and nothing else, and leaves the element as it was; and when
    the pipeline is run a second time on the output of a first run, nothing
    is left to normalise and every image that had a [data:] source after the
    first run is the same element after the second. *)
Theorem embedSingleImage_skips_inline :
  (forall (H : host) (n : nat) (i : img) (l : list event) (src : jsstring),
     get_attr (js "src") (img_attrs i) = Some src ->
     startsWith src (js "data:") = true ->
     embedSingleImage H n (i, l) = (Some tt, (i, l ++ [EvGetAttr (js "src")]))) /\
  (forall (H1 H2 : host) (t : node),
     let t1 := fst (processImages H1 t) in
     normalizeEmbeds t1 = t1 /\
     Forall2 (fun x y =>
                (exists src, get_attr (js "src") (img_attrs x) = Some src /\
                             startsWith src (js "data:") = true) -> y = x)
       (descendant_images t1) (descendant_images (fst (processImages H2 t1)))).
Proof.
  split; [apply embedSingleImage_inline|].
  intros H1 H2 t t1. split; [apply normalizeEmbeds_processed|].
  destruct (processImages_images H2 t1) as [_ E]. rewrite E.
  unfold t1. rewrite normalizeEmbeds_processed. fold t1.
  generalize (descendant_images t1) as xs. intros xs.
  cut (forall m, Forall2 (fun x y =>
                (exists src, get_attr (js "src") (img_attrs x) = Some src /\
                             startsWith src (js "data:") = true) -> y = x)
                 xs (imap (fun k i => (run_embed H2 (m + k) i).1.1) xs)).
  { intros Hm. apply (Hm 0). }
  induction xs as [|x xs IH]; intros m; [constructor|].
  simpl. constructor.
  - intros (src & Hs & Hd). unfold run_embed.
    rewrite (embedSingleImage_inline H2 (m + 0) x [] src Hs Hd). reflexivity.
  - specialize (IH (Datatypes.S m)).
    erewrite imap_ext; [exact IH|]. intros k y _. simpl. by rewrite Nat.add_succ_r.
Qed.

(** ** The branches of one image task *)

(** Case analysis on every scrutinee of [embedSingleImage] that mentions
    no other [match]. *)
Ltac split_simple :=
  match goal with
  | |- context [match ?x with _ => _ end] =>
      lazymatch x with
      | context [match _ with _ => _ end] => fail
      | _ => destruct x eqn:?
      end
  end.

Ltac norm_bools :=
  repeat match goal with
  | H : (_ || _) = false |- _ => apply orb_false_iff in H as [? ?]
  | H : (_ && _) = true |- _ => apply andb_true_iff in H as [? ?]
  | H : (_ || _) = true |- _ => apply orb_true_iff in H as [?|?]
  | H : (_ && _) = false |- _ => apply andb_false_iff in H as [?|?]
  | H : negb _ = true |- _ => apply negb_true_iff in H
  | H : negb _ = false |- _ => apply negb_false_iff in H
  | H : jseqb _ _ = _ |- _ => unfold jseqb in H
  | H : bool_decide _ = true |- _ => apply bool_decide_eq_true in H
  | H : bool_decide _ = false |- _ => apply bool_decide_eq_false in H
  end.

Lemma get_attr_set_attr_ne (k k' v : jsstring) (a : attrs) :
  k <> k' -> get_attr k (set_attr k' v a) = get_attr k a.
Proof.
  intros Hk. induction a as [|[k0 v0] a IH]; simpl.
  - unfold jseqb. rewrite bool_decide_false by done. done.
  - destruct (jseqb k' k0) eqn:E1; simpl.
    + apply bool_decide_eq_true in E1. subst k0.
      unfold jseqb. by rewrite bool_decide_false.
    + by rewrite IH.
Qed.


Lemma get_attr_remove_ne (k k' : jsstring) (a : attrs) :
  k <> k' -> get_attr k (remove_attr k' a) = get_attr k a.
Proof.
  intros Hk. induction a as [|[k0 v0] a IH]; [done|].
  unfold remove_attr in *. rewrite filter_cons.
  destruct (jseqb k' k0) eqn:E1; cbn [negb fst]; rewrite E1; case_decide as Hd;
    try done.
  - apply bool_decide_eq_true in E1. subst k0. cbn [get_attr].
    assert (jseqb k k' = false) as -> by (unfold jseqb; by apply bool_decide_false).
    exact IH.
  - cbn [get_attr]. destruct (jseqb k k0); [done|exact IH].
Qed.


(** C10: a run of [embedSingleImage] that sets [alt] (which only the
    branch where no bytes were obtained does) sets it to the message naming
    the original [src], sets the [border] style, and changes nothing else:
    [src] and every other attribute and style property keep their values. *)
Theorem embedSingleImage_failure_marks_only (H : host) (n : nat) (i i' : img)
    (r : option unit) (lg : list event) (v : jsstring) :
  embedSingleImage H n (i, []) = (r, (i', lg)) ->
  In (EvSetAttr (js "alt") v) lg ->
  exists src, get_attr (js "src") (img_attrs i) = Some src /\
    v = js "[Image Missing: " ++ src ++ js "]" /\
    img_attrs i' = set_attr (js "alt") v (img_attrs i) /\
    img_style i' = set_attr (js "border") (js "1px solid red") (img_style i) /\
    get_attr (js "src") (img_attrs i') = Some src /\
    (forall k, k <> js "alt" -> get_attr k (img_attrs i') = get_attr k (img_attrs i)) /\
    (forall k, k <> js "border" -> get_attr k (img_style i') = get_attr k (img_style i)).
Proof.
  unfold embedSingleImage, mbind, M_bind, bind, getAttribute, try_catch, of_option, ret, throw,
   readBinaryM, requestUrlM, log, setAttribute, removeAttribute, setStyle.
  cbn -[js jseqb startsWith decodeURIComponent arrayBufferToBase64Async].
  repeat (split_simple; unfold mbind, M_bind, bind, of_option, ret, throw in *;
    cbn -[js jseqb startsWith decodeURIComponent arrayBufferToBase64Async] in *).
  all: intros [= <- <- <-] Hin; cbn -[js] in Hin.
  all: repeat (destruct Hin as [Hin|Hin]; [try discriminate Hin|]); try contradiction.
  all: injection Hin as Hv; subst v.
  all: eexists; split; [reflexivity|].
  all: split; [reflexivity|]; split; [reflexivity|]; split; [reflexivity|]; cbn [img_attrs img_style].
  all: split; [rewrite get_attr_set_attr_ne; [assumption|discriminate]|].
  all: split; intros k Hk; apply get_attr_set_attr_ne; done.
Qed.



(** C1: an image whose fetch throws keeps its external [src] and gets no
    marker: the error goes to the [catch] of [embedSingleImage], which only
    logs it.  An image with no local file and no [http] source is marked. *)
Theorem processImages_unmarked_on_fetch_error :
  fst (processImages offline_host
         (Element (js "div") [] [] [img_element (js "http://example.com/a.png")])) =
    Element (js "div") [] [] [img_element (js "http://example.com/a.png")] /\
  run_embed offline_host 0
    {| img_attrs := [(js "src", js "http://example.com/a.png")]; img_style := [] |} =
    ({| img_attrs := [(js "src", js "http://example.com/a.png")]; img_style := [] |},
     [EvGetAttr (js "src"); EvGetAttr (js "data-is-embed");
      EvFetch (js "http://example.com/a.png")], true) /\
  fst (processImages offline_host
         (Element (js "div") [] [] [img_element (js "missing.png")])) =
    Element (js "div") [] []
      [Element (js "img")
         [(js "src", js "missing.png"); (js "alt", js "[Image Missing: missing.png]")]
         [(js "border", js "1px solid red")] []].
Proof. repeat split; vm_compute; reflexivity. Qed.

(** C5: a marker whose source has no [.] is still converted:
    [split('.').pop()] is then the whole source, here [gif]. *)
Theorem normalize_node_extensionless :
  ~ In 46%N (js "gif") /\
  extension_of (js "gif") = js "gif" /\
  normalize_node (Element (js "span")
                    [(js "class", js "internal-embed"); (js "src", js "gif")] [] []) =
    embed_img (js "gif").
Proof.
  split; [cbn; intuition discriminate|].
  split; vm_compute; reflexivity.
Qed.

(** ** Media elements *)

Lemma sanitize_node_no_media (t : node) :
  Forall (fun g => is_media g = false) (tags (sanitize_node t)).
Proof.
  induction t as [d|tag a st cs IH] using node_ind'; [constructor|].
  cbn [sanitize_node]. destruct (is_media tag) eqn:Em.
  - repeat constructor.
  - cbn [tags]. constructor; [done|].
    induction IH as [|c cs Hc _ IHl]; [constructor|].
    cbn [map flat_map]. apply Forall_app. by split.
Qed.

Lemma sanitize_node_at (t : node) (p : list nat) :
  path_clear t p = true ->
  subtree_at (sanitize_node t) p = sanitize_node <$> subtree_at t p.
Proof.
  revert t. induction p as [|k p IH]; intros t Hp; [done|].
  destruct t as [tag a st cs|d]; [|done].
  cbn [path_clear] in Hp. apply andb_true_iff in Hp as [Hm Hc].
  apply negb_true_iff in Hm.
  cbn [sanitize_node]. rewrite Hm. cbn [subtree_at].
  rewrite list_lookup_fmap. destruct (cs !! k) as [c|]; [|done].
  cbn. by apply IH.
Qed.

(** C7: after [sanitizeElements] no [video], [audio] or [iframe] is left
    below the container; every such element with no such element above it
    is, at the same position, the placeholder [div]; every other node of
    such a path keeps its tag, attributes and style; and the placeholder is
    the fixed text with a dashed border, grey text and centred alignment. *)
Theorem sanitizeElements_spec (tag : jsstring) (a st : attrs) (cs : list node) :
  (exists cs', sanitizeElements (Element tag a st cs) = Element tag a st cs' /\
     length cs' = length cs /\
     Forall (fun c => Forall (fun g => is_media g = false) (tags c)) cs' /\
     forall k c c' p, cs !! k = Some c -> cs' !! k = Some c' -> path_clear c p = true ->
       match subtree_at c p with
       | Some (Element tag' a' st' ds) =>
           subtree_at c' p =
             Some (if is_media tag' then placeholder
                   else Element tag' a' st' (map sanitize_node ds))
       | Some (Text d) => subtree_at c' p = Some (Text d)
       | None => subtree_at c' p = None
       end) /\
  placeholder =
    Element (js "div") []
      [(js "border", js "1px dashed #ccc"); (js "padding", js "10px");
       (js "color", js "#888"); (js "text-align", js "center")]
      [Text (js "[Media/Embed not supported in PDF Export]")].
Proof.
  split; [|reflexivity].
  exists (map sanitize_node cs). split; [done|]. split; [apply length_map|]. split.
  - apply Forall_forall. intros c Hc. apply list_elem_of_fmap in Hc as (c0 & -> & _).
    apply sanitize_node_no_media.
  - intros k c c' p Ek Ek' Hp.
    rewrite list_lookup_fmap, Ek in Ek'. injection Ek' as <-.
    rewrite (sanitize_node_at c p Hp).
    destruct (subtree_at c p) as [[tag' a' st' ds|d]|]; done.
Qed.

(** ** Instances of the theorems above on sample inputs *)

Lemma createUniqueExportFolder_spec_witness :
  (sanitize_basename (js "My Note") ++ js "-Export") ∉ (∅ : store) /\
  fst (createUniqueExportFolder (js "My Note") ∅) = js "My_Note-Export".
Proof.
  assert (Hn : (sanitize_basename (js "My Note") ++ js "-Export") ∉ (∅ : store))
    by set_solver.
  split; [exact Hn|].
  pose proof (createUniqueExportFolder_spec (js "My Note") ∅) as Hs. cbv zeta in Hs.
  destruct (createUniqueExportFolder (js "My Note") ∅) as [name S'].
  destruct Hs as (_ & _ & _ & _ & Hf & _). exact (Hf Hn).
Defined.

Lemma generatePdf_releases_container_witness :
  (forall x, x ∈ [0] -> x < 1) /\
  let p0 := {| body := [0]; next_node := 1; notices := [] |} in
  let '(r, p') := generatePdf (Some {| tf_path := js "Note.md"; tf_name := js "Note.md";
                                       tf_extension := js "md" |})
                    (fun _ => true) p0 in
  r = Some tt /\ body p' = body p0 /\
  (Some {| tf_path := js "Note.md"; tf_name := js "Note.md"; tf_extension := js "md" |}
     <> None -> next_node p0 ∉ body p').
Proof.
  assert (Hf : forall x, x ∈ [0] -> x < 1).
  { intros x Hx. apply list_elem_of_singleton in Hx. lia. }
  split; [exact Hf|]. cbv zeta.
  exact (generatePdf_releases_container
           (Some {| tf_path := js "Note.md"; tf_name := js "Note.md";
                    tf_extension := js "md" |}) (fun _ => true)
           {| body := [0]; next_node := 1; notices := [] |} Hf).
Defined.


Lemma embedSingleImage_skips_inline_witness :
  embedSingleImage offline_host 0
    ({| img_attrs := [(js "src", js "data:image/png;base64,AA==")]; img_style := [] |}, []) =
    (Some tt, ({| img_attrs := [(js "src", js "data:image/png;base64,AA==")];
                  img_style := [] |}, [EvGetAttr (js "src")])).
Proof.
  exact (proj1 embedSingleImage_skips_inline offline_host 0
           {| img_attrs := [(js "src", js "data:image/png;base64,AA==")]; img_style := [] |}
           [] (js "data:image/png;base64,AA==") eq_refl eq_refl).
Defined.

Lemma sanitizeElements_spec_witness :
  subtree_at (sanitize_node (Element (js "p") [] [] [Element (js "video") [] [] []])) [0] =
    Some placeholder.
Proof.
  destruct (sanitizeElements_spec (js "div") [] []
              [Element (js "p") [] [] [Element (js "video") [] [] []]])
    as ((cs' & E & _ & _ & Hat) & _).
  cbn [sanitizeElements] in E. injection E as <-.
  exact (Hat 0 _ _ [0] eq_refl eq_refl eq_refl).
Defined.

Lemma embedSingleImage_failure_marks_only_witness :
  embedSingleImage offline_host 0
    ({| img_attrs := [(js "src", js "missing.png")]; img_style := [] |}, []) =
    (Some tt,
     ({| img_attrs := [(js "src", js "missing.png");
                       (js "alt", js "[Image Missing: missing.png]")];
         img_style := [(js "border", js "1px solid red")] |},
      [EvGetAttr (js "src"); EvGetAttr (js "data-is-embed");
       EvSetAttr (js "alt") (js "[Image Missing: missing.png]");
       EvSetStyle (js "border") (js "1px solid red")])) /\
  exists src, get_attr (js "src") [(js "src", js "missing.png")] = Some src /\
    js "[Image Missing: missing.png]" = js "[Image Missing: " ++ src ++ js "]".
Proof.
  assert (E : embedSingleImage offline_host 0
    ({| img_attrs := [(js "src", js "missing.png")]; img_style := [] |}, []) =
    (Some tt,
     ({| img_attrs := [(js "src", js "missing.png");
                       (js "alt", js "[Image Missing: missing.png]")];
         img_style := [(js "border", js "1px solid red")] |},
      [EvGetAttr (js "src"); EvGetAttr (js "data-is-embed");
       EvSetAttr (js "alt") (js "[Image Missing: missing.png]");
       EvSetStyle (js "border") (js "1px solid red")]))) by (vm_compute; reflexivity).
  split; [exact E|].
  destruct (embedSingleImage_failure_marks_only _ _ _ _ _ _
              (js "[Image Missing: missing.png]") E)
    as (src & Hs & Hv & _); [simpl; tauto|].
  exists src. split; assumption.
Defined.


(** ** Further properties of the pipeline *)

Lemma pretty_N_char_digit (y : N) :
  (48 <= Ascii.N_of_ascii (pretty_N_char y) <= 57)%N.
Proof. unfold pretty_N_char. repeat case_match; cbn; lia. Qed.

Lemma pretty_N_go_digits (x : N) (s : string) :
  Forall (fun c => 48 <= c <= 57)%N (js s) ->
  Forall (fun c => 48 <= c <= 57)%N (js (pretty_N_go x s)).
Proof.
  revert s. induction (N.lt_wf_0 x) as [x _ IH]; intros s Hs.
  destruct (decide (x = 0%N)) as [->|Hx]; [by rewrite pretty_N_go_0|].
  rewrite pretty_N_go_step by lia. apply IH; [apply N.div_lt; lia|].
  cbn [js]. constructor; [apply pretty_N_char_digit|exact Hs].
Qed.

Lemma show_nat_digits (i : nat) : Forall (fun c => 48 <= c <= 57)%N (show_nat i).
Proof.
  unfold show_nat. change (pretty i) with (pretty (N.of_nat i)).
  unfold pretty at 1, pretty_N.
  destruct (decide (N.of_nat i = 0%N)); [repeat constructor; cbn; lia|].
  apply pretty_N_go_digits. constructor.
Qed.

Lemma sanitize_basename_chars (b : jsstring) :
  Forall (fun c => is_alnum c = true \/ c = 95%N) (sanitize_basename b).
Proof.
  unfold sanitize_basename. apply Forall_forall. intros c Hc.
  apply list_elem_of_fmap in Hc as (c0 & -> & _).
  destruct (is_alnum c0) eqn:E; auto.
Qed.

(** The name [createUniqueExportFolder] creates is made of ASCII letters,
    digits, [_] and [-] only: it has no [/], [.] or other path syntax, so
    the folder is always created at the root of the vault. *)
Theorem createUniqueExportFolder_name_chars (basename : jsstring) (S : store) :
  Forall (fun c => is_alnum c = true \/ c = 95%N \/ c = 45%N)
    (fst (createUniqueExportFolder basename S)).
Proof.
  assert (Hf : Forall (fun c => is_alnum c = true \/ c = 95%N \/ c = 45%N)
                 (sanitize_basename basename ++ js "-Export")).
  { apply Forall_app. split.
    - eapply Forall_impl; [apply sanitize_basename_chars|]. intros c [?|?]; auto.
    - cbn [js]. repeat apply Forall_cons_2; try apply Forall_nil_2;
        first [left; reflexivity | right; left; reflexivity | right; right; reflexivity]. }
  unfold createUniqueExportFolder. cbv zeta.
  destruct (negb _); [exact Hf|]. cbn [fst]. unfold suffixed.
  apply Forall_app. split; [exact Hf|]. apply Forall_app. split.
  - cbn [js]. apply Forall_cons_2; [right; right; reflexivity|apply Forall_nil_2].
  - eapply Forall_impl; [apply show_nat_digits|]. intros c Hc.
    left. unfold is_alnum. apply orb_true_iff. left. apply orb_true_iff. left.
    apply andb_true_iff. rewrite !N.leb_le. exact Hc.
Qed.

(** When [X-Export] exists, the loop of [createUniqueExportFolder] stops at
    a number no larger than the number of existing paths plus one. *)
Theorem createUniqueExportFolder_probe_bound (basename : jsstring) (S : store) :
  let folder := sanitize_basename basename ++ js "-Export" in
  folder ∈ S ->
  exists n, 1 <= n <= size S + 1 /\
    fst (createUniqueExportFolder basename S) = suffixed folder n.
Proof.
  intros folder Hin. unfold createUniqueExportFolder. cbv zeta. fold folder.
  rewrite bool_decide_true by done. cbn [negb fst].
  destruct (probe_spec S folder (Datatypes.S (size S)) 1) as (Hle & _ & Hend).
  exists (probe S folder (Datatypes.S (size S)) 1). split; [|done].
  set (j := probe S folder (Datatypes.S (size S)) 1) in *.
  destruct (probe_spec S folder (Datatypes.S (size S)) 1) as (_ & Hall & _). fold j in Hall.
  set (l := map (suffixed folder) (seq 1 (j - 1))).
  assert (Hnd : NoDup l).
  { apply NoDup_fmap_2_strong; [intros ?? _ _; apply suffixed_inj|]. apply NoDup_seq. }
  assert (Hincl : incl l (elements S)).
  { intros x Hx. apply list_elem_of_In. apply elem_of_elements.
    apply list_elem_of_In in Hx. unfold l in Hx.
    apply list_elem_of_fmap in Hx as (k & -> & Hk).
    apply elem_of_seq in Hk. apply Hall. lia. }
  apply NoDup_ListNoDup in Hnd.
  pose proof (NoDup_incl_length Hnd Hincl) as Hlen.
  unfold l in Hlen. rewrite length_map, length_seq in Hlen.
  unfold size, set_size in *. simpl in *. lia.
Qed.

Lemma lower_unit_idem (c : N) : lower_unit (lower_unit c) = lower_unit c.
Proof.
  unfold lower_unit.
  destruct ((65 <=? c)%N && (c <=? 90)%N) eqn:E.
  - apply andb_true_iff in E as [E1 E2]. apply N.leb_le in E1, E2.
    replace ((65 <=? c + 32)%N && (c + 32 <=? 90)%N) with false; [done|].
    symmetry. apply andb_false_iff. right. apply N.leb_gt. lia.
  - by rewrite E.
Qed.

(** [getMimeType] always answers one of six image types, and does not
    depend on the ASCII case of the extension. *)
Theorem getMimeType_range_case (extension : jsstring) :
  getMimeType extension ∈
    [js "image/jpeg"; js "image/webp"; js "image/gif"; js "image/svg+xml";
     js "image/bmp"; js "image/png"] /\
  getMimeType (toLowerCase extension) = getMimeType extension.
Proof.
  split.
  - unfold getMimeType. repeat case_match; set_solver.
  - unfold getMimeType.
    assert (E : toLowerCase (toLowerCase extension) = toLowerCase extension).
    { unfold toLowerCase. rewrite map_map. apply map_ext. apply lower_unit_idem. }
    by rewrite E.
Qed.

(** Normalising the embeds of a container twice gives the same tree as
    normalising them once. *)
Theorem normalizeEmbeds_idempotent (container : node) :
  normalizeEmbeds (normalizeEmbeds container) = normalizeEmbeds container.
Proof.
  destruct container as [tag a st cs|d]; [|done]. cbn [normalizeEmbeds].
  rewrite map_map. f_equal. apply map_ext. apply normalize_node_idem.
Qed.

Lemma embed_node_erase (H : host) (t : node) : forall n,
  erase_imgs (embed_node H n t).1.1 = erase_imgs t.
Proof.
  induction t as [d|tag a st cs IH] using node_ind'; intros n; [done|].
  rewrite embed_node_Element.
  assert (Hl : forall m, map erase_imgs (embed_list H m cs).1.1 = map erase_imgs cs).
  { clear -IH. induction IH as [|c cs Hc _ IHl]; intros m; [done|]. simpl.
    specialize (Hc m).
    destruct (embed_node H m c) as [[c' n1] ok1]. simpl in Hc.
    specialize (IHl n1).
    destruct (embed_list H n1 cs) as [[cs' n2] ok2]. simpl in *. by rewrite Hc, IHl. }
  destruct (jseqb tag (js "img")) eqn:Etag.
  - destruct (run_embed _ _ _) as [[i' lg] ok].
    specialize (Hl (Datatypes.S n)).
    destruct (embed_list H _ cs) as [[cs' n2] okc]. simpl in *.
    by rewrite Etag, Hl.
  - specialize (Hl n).
    destruct (embed_list H _ cs) as [[cs' n2] okc]. simpl in *.
    by rewrite Etag, Hl.
Qed.

(** [processImages] changes nothing but the attributes and inline style of
    [img] elements: after the embed markers are normalised, the tree keeps
    its shape, its text and every other element's attributes and style. *)
Theorem processImages_preserves_shape (H : host) (container : node) :
  erase_imgs (fst (processImages H container)) = erase_imgs (normalizeEmbeds container).
Proof.
  unfold processImages. destruct (normalizeEmbeds container) as [tag a st cs|d]; [|done].
  assert (Hl : forall m, map erase_imgs (embed_list H m cs).1.1 = map erase_imgs cs).
  { induction cs as [|c cs IHl]; intros m; [done|]. simpl.
    pose proof (embed_node_erase H c m) as Hc.
    destruct (embed_node H m c) as [[c' n1] ok1]. simpl in Hc.
    specialize (IHl n1).
    destruct (embed_list H n1 cs) as [[cs' n2] ok2]. simpl in *. by rewrite Hc, IHl. }
  specialize (Hl 0).
  destruct (embed_list H 0 cs) as [[cs' m] ok]. simpl in *.
  destruct (jseqb tag (js "img")); by rewrite Hl.
Qed.

(** ** The image task: frame and local files *)

Lemma embedSingleImage_attrs_frame H n i r i' lg k :
  k <> js "src" -> k <> js "srcset" -> k <> js "data-src" ->
  k <> js "data-is-embed" -> k <> js "sizes" -> k <> js "alt" ->
  embedSingleImage H n (i, []) = (r, (i', lg)) ->
  get_attr k (img_attrs i') = get_attr k (img_attrs i).
Proof.
  intros H1 H2 H3 H4 H5 H6.
  unfold embedSingleImage, mbind, M_bind, bind, getAttribute, try_catch, of_option, ret, throw,
   readBinaryM, requestUrlM, log, setAttribute, removeAttribute, setStyle.
  cbn -[js jseqb startsWith decodeURIComponent arrayBufferToBase64Async find_file get_attr set_attr remove_attr].
  repeat (split_simple; unfold mbind, M_bind, bind, of_option, ret, throw in *;
    cbn -[js jseqb startsWith decodeURIComponent arrayBufferToBase64Async find_file get_attr set_attr remove_attr] in *).
  all: intros [= <- <- <-]; cbn [img_attrs];
       rewrite ?get_attr_remove_ne, ?get_attr_set_attr_ne by assumption; reflexivity.
Qed.

Lemma embedSingleImage_style_frame H n i r i' lg k :
  k <> js "border" ->
  embedSingleImage H n (i, []) = (r, (i', lg)) ->
  get_attr k (img_style i') = get_attr k (img_style i).
Proof.
  intros H1.
  unfold embedSingleImage, mbind, M_bind, bind, getAttribute, try_catch, of_option, ret, throw,
   readBinaryM, requestUrlM, log, setAttribute, removeAttribute, setStyle.
  cbn -[js jseqb startsWith decodeURIComponent arrayBufferToBase64Async find_file get_attr set_attr remove_attr].
  repeat (split_simple; unfold mbind, M_bind, bind, of_option, ret, throw in *;
    cbn -[js jseqb startsWith decodeURIComponent arrayBufferToBase64Async find_file get_attr set_attr remove_attr] in *).
  all: intros [= <- <- <-]; cbn [img_style];
       rewrite ?get_attr_set_attr_ne by assumption; reflexivity.
Qed.

(** [embedSingleImage] writes only the attributes [src], [srcset],
    [data-src], [data-is-embed], [sizes] and [alt] and the style property
    [border]: every other attribute and style property keeps its value,
    whatever the outcome of the task. *)
Theorem embedSingleImage_frame (H : host) (n : nat) (i i' : img)
    (r : option unit) (lg : list event) :
  embedSingleImage H n (i, []) = (r, (i', lg)) ->
  (forall k, k ∉ [js "src"; js "srcset"; js "data-src"; js "data-is-embed";
                  js "sizes"; js "alt"] ->
     get_attr k (img_attrs i') = get_attr k (img_attrs i)) /\
  (forall k, k <> js "border" -> get_attr k (img_style i') = get_attr k (img_style i)).
Proof.
  intros E. split; intros k Hk.
  - eapply embedSingleImage_attrs_frame; [..|exact E];
      intros ->; apply Hk; set_solver.
  - exact (embedSingleImage_style_frame _ _ _ _ _ _ _ Hk E).
Qed.





(** ** The earlier version of the plugin *)

Lemma startsWith_app (p s : jsstring) : startsWith (p ++ s) p = true.
Proof.
  induction p as [|c p IH]; [by destruct s|].
  cbn [app startsWith]. by rewrite N.eqb_refl, IH.
Qed.

Lemma startsWith_true (s p : jsstring) :
  startsWith s p = true -> s = p ++ drop (length p) s.
Proof.
  revert s; induction p as [|c p IH]; intros [|d s]; simpl; try done.
  intros [E1 E2]%andb_true_iff. apply N.eqb_eq in E1 as ->. by rewrite <-IH.
Qed.

Lemma replace_first_split (pat s : jsstring) :
  (exists pre post, s = pre ++ pat ++ post) ->
  exists p q, forall rep, Legacy.replace_first pat rep s = p ++ rep ++ q.
Proof.
  induction s as [|c s IH]; intros (pre & post & Hs).
  - exists [], []. intros rep. destruct pre, pat; try discriminate. simpl.
    by rewrite !app_nil_r.
  - cbn [Legacy.replace_first].
    destruct (startsWith (c :: s) pat) eqn:Hst.
    + exists [], (drop (length pat) (c :: s)). done.
    + destruct pre as [|d pre].
      * cbn [app] in Hs. rewrite Hs, startsWith_app in Hst. discriminate.
      * injection Hs as -> Hs.
        destruct IH as (p & q & Hpq); [by exists pre, post|].
        exists (d :: p), q. intros rep. by rewrite Hpq.
Qed.

Lemma replace_first_absent (pat rep s : jsstring) :
  ~ (exists pre post, s = pre ++ pat ++ post) ->
  Legacy.replace_first pat rep s = s.
Proof.
  induction s as [|c s IH]; intros Habs; cbn [Legacy.replace_first];
    destruct (startsWith _ pat) eqn:Hst.
  - exfalso. apply Habs. exists [], (drop (length pat) []).
    by apply startsWith_true in Hst.
  - done.
  - exfalso. apply Habs. exists [], (drop (length pat) (c :: s)).
    by apply startsWith_true in Hst.
  - rewrite IH; [done|]. intros (pre & post & Hs). apply Habs.
    exists (c :: pre), post. by rewrite Hs.
Qed.

Lemma numbered_inj (f : jsstring) (i j : nat) :
  (exists pre post, f = pre ++ js ".html" ++ post) ->
  Legacy.numbered f i = Legacy.numbered f j -> i = j.
Proof.
  intros Hocc. unfold Legacy.numbered.
  destruct (replace_first_split _ _ Hocc) as (p & q & Hpq).
  rewrite !Hpq. intros E.
  apply app_inv_head in E. rewrite !(assoc_L app) in E. apply app_inv_tail in E.
  apply app_inv_tail in E. apply app_inv_head in E. unfold show_nat in E. apply js_inj in E.
  by apply (inj pretty).
Qed.

Lemma save_loop_none (S : store) (f safe : jsstring) (i fuel : nat) :
  Legacy.save_loop S f safe i fuel = None ->
  (1 <= fuel -> safe ∈ S) /\
  (forall k, i <= k < i + fuel - 1 -> Legacy.numbered f k ∈ S).
Proof.
  revert safe i; induction fuel as [|fuel IH]; intros safe i; simpl.
  - intros _. split; [lia|]. intros; lia.
  - case_bool_decide as Hin; [|discriminate].
    intros (H1 & H2)%IH. split; [done|].
    intros k Hk. destruct (decide (k = i)) as [->|Hne].
    + apply H1. lia.
    + apply H2. lia.
Qed.

Lemma save_loop_some (S : store) (f safe name : jsstring) (i fuel : nat) :
  Legacy.save_loop S f safe i fuel = Some name ->
  (name ∉ S) /\
  (name = safe \/
   (safe ∈ S /\ exists k, i <= k /\ name = Legacy.numbered f k /\
      forall k', i <= k' < k -> Legacy.numbered f k' ∈ S)).
Proof.
  revert safe i; induction fuel as [|fuel IH]; intros safe i; simpl; [discriminate|].
  case_bool_decide as Hin.
  - intros (Hn & [->|(Hs & k & Hk & -> & Hall)])%IH; split; try done.
    + right. split; [done|]. exists i. split; [lia|]. split; [done|]. intros; lia.
    + right. split; [done|]. exists k. split; [lia|]. split; [done|].
      intros k' Hk'. destruct (decide (k' = i)) as [->|Hne]; [done|].
      apply Hall. lia.
  - intros [= <-]. split; [done|]. by left.
Qed.

Lemma numbered_distinct_in (S : store) (f : jsstring) (m : nat) :
  (exists pre post, f = pre ++ js ".html" ++ post) ->
  (forall k, 1 <= k <= m -> Legacy.numbered f k ∈ S) -> m <= size S.
Proof.
  intros Hocc Hall.
  set (l := map (Legacy.numbered f) (seq 1 m)).
  assert (Hnd : NoDup l).
  { apply NoDup_fmap_2_strong; [intros ?? _ _; by apply numbered_inj|].
    apply NoDup_seq. }
  assert (Hincl : incl l (elements S)).
  { intros x Hx. apply list_elem_of_In. apply elem_of_elements.
    apply list_elem_of_In in Hx. unfold l in Hx.
    apply list_elem_of_fmap in Hx as (k & -> & Hk).
    apply elem_of_seq in Hk. apply Hall. lia. }
  apply NoDup_ListNoDup in Hnd.
  pose proof (NoDup_incl_length Hnd Hincl) as Hlen.
  unfold l in Hlen. rewrite length_map, length_seq in Hlen.
  unfold size, set_size. simpl. lia.
Qed.

(** The earlier [saveFileToVault]: when the file name contains ".html"
    (as the "{basename}.html" it is called with does), the loop stops within
    [size S + 2] probes, and the name written is new: the file name itself
    or its first ".html" replaced by " (k).html" for some
    [1 <= k <= size S + 1]. *)
Theorem legacy_saveFileToVault_fresh (S : store) (filename : jsstring) (fuel : nat) :
  (exists pre post, filename = pre ++ js ".html" ++ post) ->
  size S + 2 <= fuel ->
  exists name, Legacy.saveFileToVault S filename fuel = Some (name, {[name]} ∪ S) /\
    (name ∉ S) /\
    (name = filename \/
     exists k, 1 <= k <= size S + 1 /\ name = Legacy.numbered filename k).
Proof.
  intros Hocc Hfuel. unfold Legacy.saveFileToVault.
  destruct (Legacy.save_loop S filename filename 1 fuel) as [name|] eqn:E.
  - exists name. split; [done|].
    apply save_loop_some in E as (Hn & [->|(_ & k & Hk & -> & Hall)]).
    + split; [done|]. by left.
    + split; [done|]. right. exists k. split; [|done].
      split; [lia|].
      pose proof (numbered_distinct_in S filename (k - 1) Hocc
                    ltac:(intros k' Hk'; apply Hall; lia)). lia.
  - exfalso. apply save_loop_none in E as (_ & Hall).
    pose proof (numbered_distinct_in S filename (size S + 1) Hocc
                  ltac:(intros k Hk; apply Hall; lia)). lia.
Qed.

(** The earlier [saveFileToVault] never stops on an existing file name
    without ".html": [replace] then leaves the name unchanged, so every probe
    finds the same existing file. *)
Theorem legacy_saveFileToVault_loops (S : store) (filename : jsstring) :
  ~ (exists pre post, filename = pre ++ js ".html" ++ post) ->
  filename ∈ S ->
  forall fuel, Legacy.saveFileToVault S filename fuel = None.
Proof.
  intros Habs Hin fuel. unfold Legacy.saveFileToVault.
  assert (Hloop : forall i, Legacy.save_loop S filename filename i fuel = None).
  { induction fuel as [|fuel IH]; intros i; simpl; [done|].
    rewrite bool_decide_true by done. unfold Legacy.numbered.
    rewrite replace_first_absent by done. apply IH. }
  by rewrite Hloop.
Qed.

Lemma legacy_saveFileToVault_fresh_witness :
  (exists pre post, js "Note.html" = pre ++ js ".html" ++ post) /\
  size ({[js "Note.html"]} : store) + 2 <= 3 /\
  exists name, Legacy.saveFileToVault {[js "Note.html"]} (js "Note.html") 3 =
    Some (name, {[name]} ∪ {[js "Note.html"]}) /\ (name ∉ ({[js "Note.html"]} : store)) /\
    (name = js "Note.html" \/
     exists k, 1 <= k <= size ({[js "Note.html"]} : store) + 1 /\
       name = Legacy.numbered (js "Note.html") k).
Proof.
  assert (Hocc : exists pre post, js "Note.html" = pre ++ js ".html" ++ post)
    by (exists (js "Note"), []; reflexivity).
  assert (Hsz : size ({[js "Note.html"]} : store) + 2 <= 3)
    by (rewrite size_singleton; lia).
  split; [exact Hocc|]. split; [exact Hsz|].
  exact (legacy_saveFileToVault_fresh _ _ _ Hocc Hsz).
Defined.

Lemma legacy_saveFileToVault_loops_witness :
  ~ (exists pre post, js "a.txt" = pre ++ js ".html" ++ post) /\
  js "a.txt" ∈ ({[js "a.txt"]} : store) /\
  Legacy.saveFileToVault {[js "a.txt"]} (js "a.txt") 10 = None.
Proof.
  assert (Habs : ~ (exists pre post, js "a.txt" = pre ++ js ".html" ++ post)).
  { intros (pre & post & E).
    assert (Hl : length (js "a.txt") = length (pre ++ js ".html" ++ post)) by (by rewrite <-E).
    rewrite !length_app in Hl. simpl in Hl.
    destruct pre; [|simpl in Hl; lia]. destruct post; [|simpl in Hl; lia].
    discriminate E. }
  assert (Hin : js "a.txt" ∈ ({[js "a.txt"]} : store)) by set_solver.
  split; [exact Habs|]. split; [exact Hin|].
  exact (legacy_saveFileToVault_loops _ _ Habs Hin 10).
Defined.

Lemma btoa_binary_string (buffer : list byte) :
  Legacy.arrayBufferToBase64 buffer = Some (base64_encode buffer).
Proof.
  unfold Legacy.arrayBufferToBase64, Legacy.btoa, Legacy.binary_string.
  assert (Hm : mapM Byte.of_N (map Byte.to_N buffer) = Some buffer).
  { induction buffer as [|b bs IH]; [done|]. simpl. rewrite Byte.of_to_N. simpl.
    by rewrite IH. }
  by rewrite Hm.
Qed.

(** The earlier [arrayBufferToBase64] never throws: every code unit of the
    binary string is a byte, and [btoa] returns the Base64 encoding of the
    buffer (the one [readAsDataURL] writes), which decodes back to the
    buffer. *)
Theorem legacy_arrayBufferToBase64_ok (buffer : list byte) :
  Legacy.arrayBufferToBase64 buffer = Some (base64_encode buffer) /\
  base64_decode (base64_encode buffer) = Some (map byte_val buffer).
Proof. split; [apply btoa_binary_string|apply base64_roundtrip]. Qed.

Ltac legacy_cases :=
  unfold Legacy.processImage, mbind, M_bind, bind, getAttribute, try_catch, of_option,
    ret, throw, requestUrlM, log, setAttribute;
  cbn -[js jseqb startsWith Legacy.arrayBufferToBase64 get_attr set_attr];
  repeat (split_simple; unfold mbind, M_bind, bind, of_option, ret, throw in *;
    cbn -[js jseqb startsWith Legacy.arrayBufferToBase64 get_attr set_attr] in *);
  try match goal with
      | E : Legacy.arrayBufferToBase64 _ = None |- _ =>
          rewrite btoa_binary_string in E; discriminate E
      end.

(** The earlier image task never rejects and writes only [src] and [alt],
    never the style; it fetches at most once, and it fetches [u] exactly when
    [u] is the [src], non-empty, starting with neither "data:" nor "app://",
    and starting with "http". *)
Theorem legacy_processImage_spec (H : host) (n : nat) (i i' : img)
    (r : option unit) (lg : list event) :
  Legacy.processImage H n (i, []) = (r, (i', lg)) ->
  r = Some tt /\ img_style i' = img_style i /\
  (forall k, k <> js "src" -> k <> js "alt" ->
     get_attr k (img_attrs i') = get_attr k (img_attrs i)) /\
  length (List.filter is_fetch lg) <= 1 /\
  (forall u, In (EvFetch u) lg <->
     get_attr (js "src") (img_attrs i) = Some u /\ u <> [] /\
     startsWith u (js "data:") = false /\ startsWith u (js "app://") = false /\
     startsWith u (js "http") = true).
Proof.
  legacy_cases.
  all: intros [= <- <- <-].
  all: split; [reflexivity|]; split; [reflexivity|].
  all: split; [intros k Hk1 Hk2; cbn [img_attrs];
               rewrite ?get_attr_set_attr_ne by assumption; reflexivity|].
  all: split; [cbn; lia|].
  all: intros u; split;
    [ intros Hin; cbn -[js] in Hin;
      repeat (destruct Hin as [Hin|Hin]; [try discriminate Hin|]); try contradiction;
      injection Hin as <-; norm_bools; repeat split; assumption
    | intros (Hs & Hne & H1 & H2 & H3);
      try match goal with E : get_attr _ _ = _ |- _ => rewrite E in Hs end;
      try discriminate Hs; injection Hs as <-; norm_bools; try congruence;
      cbn -[js]; tauto ].
Qed.

(** After a fetch of [u] by the earlier image task: a failed request sets
    only [alt] to "[Image Load Failed]" and keeps [src]; an answered one sets
    only [src], to "data:" ++ the content-type header (or "image/jpeg" when
    absent or empty) ++ ";base64," ++ the Base64 encoding of the body. *)
Theorem legacy_processImage_outcome (H : host) (n : nat) (i i' : img)
    (r : option unit) (lg : list event) (u : jsstring) :
  Legacy.processImage H n (i, []) = (r, (i', lg)) ->
  In (EvFetch u) lg ->
  img_attrs i' =
    match requestUrl H n u with
    | None => set_attr (js "alt") (js "[Image Load Failed]") (img_attrs i)
    | Some response =>
        set_attr (js "src")
          (js "data:" ++ Legacy.or_jpeg (get_attr (js "content-type") (resp_headers response))
           ++ js ";base64," ++ base64_encode (resp_arrayBuffer response))
          (img_attrs i)
    end.
Proof.
  legacy_cases.
  all: intros [= <- <- <-] Hin; cbn -[js] in Hin.
  all: repeat (destruct Hin as [Hin|Hin]; [try discriminate Hin|]); try contradiction.
  all: injection Hin as <-.
  all: repeat match goal with
       | E1 : requestUrl ?h ?m ?x = Some _, E2 : requestUrl ?h ?m ?x = Some _ |- _ =>
           rewrite E1 in E2; injection E2 as <-
       end.
  all: try (exfalso; congruence).
  all: repeat match goal with
       | E : requestUrl _ _ _ = _ |- _ => rewrite E; clear E
       | E : Legacy.arrayBufferToBase64 _ = _ |- _ =>
           rewrite btoa_binary_string in E; injection E as <-
       end.
  all: reflexivity.
Qed.

Lemma legacy_processImage_fulfils (H : host) (n : nat) (st : task_state) :
  fst (Legacy.processImage H n st) = Some tt.
Proof.
  destruct st as [i l].
  unfold Legacy.processImage, mbind, M_bind, bind, getAttribute. cbn -[js jseqb].
  destruct (get_attr _ _) as [src|]; [|done].
  destruct (jseqb src [] || startsWith src (js "data:") || startsWith src (js "app://"));
    [done|].
  destruct (startsWith src (js "http")); [|done].
  unfold try_catch, setAttribute. repeat case_match; simplify_eq/=; done.
Qed.

Lemma legacy_run_task_ok (H : host) (n : nat) (i : img) : (Legacy.run_task H n i).2 = true.
Proof.
  unfold Legacy.run_task. pose proof (legacy_processImage_fulfils H n (i, [])) as E.
  destruct (Legacy.processImage H n (i, [])) as [r [i' l]]. simpl in *. subst r.
  by apply bool_decide_eq_true.
Qed.

Lemma process_node_Element (H : host) (n : nat) tag a st cs :
  Legacy.process_node H n (Element tag a st cs) =
  let '(a', st', ok, n') :=
    if jseqb tag (js "img") then
      let '(i', _, ok) := Legacy.run_task H n {| img_attrs := a; img_style := st |} in
      (img_attrs i', img_style i', ok, Datatypes.S n)
    else (a, st, true, n) in
  let '(cs', n'', okc) := Legacy.process_list H n' cs in
  (Element tag a' st' cs', n'', ok && okc).
Proof.
  cbn [Legacy.process_node].
  destruct (if jseqb tag (js "img") then
      let '(i', _, ok) := Legacy.run_task H n {| img_attrs := a; img_style := st |} in
      (img_attrs i', img_style i', ok, Datatypes.S n)
    else (a, st, true, n)) as [[[a' st'] ok] n'].
  match goal with
  | |- context [?F n' cs] =>
      assert (E : forall m, F m cs = Legacy.process_list H m cs);
      [induction cs as [|c cs IH]; intros m; [done|]; simpl;
       destruct (Legacy.process_node H m c) as [[c' n1] ok1]; by rewrite IH|]
  end.
  by rewrite E.
Qed.

Lemma process_node_spec (H : host) (t : node) : forall n,
  let '(t', n', ok) := Legacy.process_node H n t in
  images t' = imap (fun k i => (Legacy.run_task H (n + k) i).1.1) (images t) /\
  erase_imgs t' = erase_imgs t /\
  n' = n + length (images t) /\ ok = true.
Proof.
  induction t as [d|tag a st cs IHcs] using node_ind'; intros n; [simpl; auto with lia|].
  rewrite process_node_Element.
  assert (Hl : forall m, let '(cs', m', okc) := Legacy.process_list H m cs in
     flat_map images cs' =
       imap (fun k i => (Legacy.run_task H (m + k) i).1.1) (flat_map images cs) /\
     map erase_imgs cs' = map erase_imgs cs /\
     m' = m + length (flat_map images cs) /\ okc = true).
  { clear -IHcs. induction IHcs as [|c cs Hc _ IH]; intros m; [simpl; auto with lia|].
    simpl. specialize (Hc m).
    destruct (Legacy.process_node H m c) as [[c' n1] ok1].
    destruct Hc as (Ec & Erc & -> & ->).
    specialize (IH (m + length (images c))).
    destruct (Legacy.process_list H _ cs) as [[cs' n2] ok2].
    destruct IH as (Ecs & Ercs & -> & ->).
    simpl. rewrite Ec, Ecs, imap_app, Erc, Ercs.
    split; [|split; [done|split; [rewrite length_app; lia|done]]].
    f_equal. apply imap_ext. intros k x _. by rewrite Nat.add_assoc. }
  unfold images at 2. fold images.
  destruct (jseqb tag (js "img")) eqn:Etag.
  - destruct (Legacy.run_task H n {| img_attrs := a; img_style := st |})
      as [[i' lg] ok] eqn:Er.
    specialize (Hl (Datatypes.S n)).
    destruct (Legacy.process_list H _ cs) as [[cs' n2] okc].
    destruct Hl as (Ecs & Ercs & -> & ->).
    cbn -[js jseqb Legacy.run_task]. rewrite Etag, Nat.add_0_r, Er.
    cbn -[js jseqb Legacy.run_task].
    destruct i'. simpl. rewrite Ecs, Ercs.
    split; [f_equal; apply imap_ext; intros k x _; simpl; do 3 f_equal; lia|].
    split; [done|]. split; [lia|].
    pose proof (legacy_run_task_ok H n {| img_attrs := a; img_style := st |}) as Ok.
    rewrite Er in Ok. simpl in Ok. by subst ok.
  - specialize (Hl n).
    destruct (Legacy.process_list H _ cs) as [[cs' n2] okc].
    destruct Hl as (Ecs & Ercs & -> & ->).
    cbn -[js jseqb]. rewrite Etag, Ercs. auto.
Qed.

Lemma process_list_spec (H : host) (cs : list node) : forall m,
  let '(cs', m', okc) := Legacy.process_list H m cs in
  flat_map images cs' =
    imap (fun k i => (Legacy.run_task H (m + k) i).1.1) (flat_map images cs) /\
  map erase_imgs cs' = map erase_imgs cs /\
  m' = m + length (flat_map images cs) /\ okc = true.
Proof.
  induction cs as [|c cs IH]; intros m; [simpl; auto with lia|].
  simpl. pose proof (process_node_spec H c m) as Hc.
  destruct (Legacy.process_node H m c) as [[c' n1] ok1]. destruct Hc as (Ec & Erc & -> & ->).
  specialize (IH (m + length (images c))).
  destruct (Legacy.process_list H _ cs) as [[cs' n2] ok2].
  destruct IH as (Ecs & Ercs & -> & ->).
  simpl. rewrite Ec, Ecs, imap_app, Erc, Ercs.
  split; [|split; [done|split; [rewrite length_app; lia|done]]].
  f_equal. apply imap_ext. intros k x _. by rewrite Nat.add_assoc.
Qed.

(** The earlier [processImages] always fulfils; the [k]-th image of the
    result is what task [k] makes of the [k]-th image alone; and the tree
    keeps its shape, text and non-image elements. *)
Theorem legacy_processImages_isolation (H : host) (container : node) :
  snd (Legacy.processImages H container) = true /\
  descendant_images (fst (Legacy.processImages H container)) =
    imap (fun k i => (Legacy.run_task H k i).1.1) (descendant_images container) /\
  erase_imgs (fst (Legacy.processImages H container)) = erase_imgs container.
Proof.
  destruct container as [tag a st cs|d]; [|done]. cbn [Legacy.processImages].
  pose proof (process_list_spec H cs 0) as Hl.
  destruct (Legacy.process_list H 0 cs) as [[cs' m] ok]. destruct Hl as (E & Er & _ & ->).
  split; [done|]. split; [exact E|]. simpl. destruct (jseqb tag (js "img")); by rewrite Er.
Qed.

(** The earlier [sanitizeElements] leaves no [video], [audio] or [iframe]
    element in the subtrees it processes, and leaves a subtree holding none
    of them unchanged. *)
Theorem legacy_sanitize_node_spec (t : node) :
  Forall (fun tag => is_media tag = false) (tags (Legacy.sanitize_node t)) /\
  (Forall (fun tag => is_media tag = false) (tags t) -> Legacy.sanitize_node t = t).
Proof.
  induction t as [d|tag a st cs IH] using node_ind'; [split; [constructor|done]|].
  cbn [Legacy.sanitize_node tags].
  destruct (is_media tag) eqn:Em.
  - split; [by repeat constructor|]. intros Hf. inversion Hf. congruence.
  - split.
    + constructor; [done|]. apply Forall_flat_map, Forall_fmap, Forall_forall.
      intros c Hc. rewrite Forall_forall in IH. by apply IH.
    + intros Hf. inversion Hf as [|? ? _ Hcs]. f_equal.
      apply Forall_flat_map in Hcs.
      rewrite <-(map_id cs) at 2. apply map_ext_in. intros c Hc.
      rewrite Forall_forall in IH, Hcs. apply IH; [by apply list_elem_of_In|].
      by apply Hcs, list_elem_of_In.
Qed.

(** The earlier [generatePdf] never rejects and removes its container; it
    shows "Generating HTML for printing..." and then exactly one more notice:
    the failure notice of the first step that throws, or
    "Exported: {path}" when every step succeeds. *)
Theorem legacy_generatePdf_notices (activeFile : option tfile)
    (throws : Legacy.stage -> bool) (saved : option jsstring) (p : page)
    (Hfresh : forall x, x ∈ body p -> x < next_node p) :
  let '(r, p') := Legacy.generatePdf activeFile throws saved p in
  r = Some tt /\ body p' = body p /\
  notices p' = notices p ++
    match activeFile with
    | None => [js "No active file selected."]
    | Some _ =>
        [js "Generating HTML for printing...";
         if throws Legacy.RenderMarkdown then js "Failed to render Markdown content."
         else if throws Legacy.ProcessImages then js "Failed to process images."
         else if throws Legacy.CreateHtml then js "Failed to generate HTML structure."
         else match saved with
              | Some savedPath => js "Exported: " ++ savedPath
              | None => js "Failed to save the HTML file."
              end]
    end.
Proof.
  destruct activeFile as [f|]; [|cbn -[js]; auto].
  assert (Hf : filter (fun x => x <> next_node p) (body p ++ [next_node p]) = body p).
  { rewrite filter_app, filter_cons_False by (intros Hn; by apply Hn).
    change (filter (fun x => x <> next_node p) []) with (@nil nat).
    rewrite app_nil_r.
    assert (Hl : forall l : list nat, (forall x, x ∈ l -> x < next_node p) ->
              filter (fun x => x <> next_node p) l = l).
    { induction l as [|y l IH]; intros Hl; [done|].
      rewrite filter_cons_True by (pose proof (Hl y ltac:(set_solver)); lia).
      f_equal. apply IH. intros x Hx. apply Hl. set_solver. }
    by apply Hl. }
  assert (Hin : next_node p ∈ body p ++ [next_node p]) by set_solver.
  unfold Legacy.generatePdf, mbind, PM_bind, mret, PM_ret, notice, createDiv,
    try_finally_pm, try_catch_pm, Legacy.step, Legacy.throw_pm, Legacy.of_option_pm,
    removeChild.
  destruct (throws Legacy.RenderMarkdown), (throws Legacy.ProcessImages),
    (throws Legacy.CreateHtml), saved;
    cbn -[js filter]; rewrite (bool_decide_true _ Hin); cbn -[js filter];
    rewrite Hf, <-!(assoc_L app); auto.
Qed.

(** ** Instances of the properties above *)

Lemma createUniqueExportFolder_probe_bound_witness :
  sanitize_basename (js "a") ++ js "-Export" ∈ ({[js "a-Export"]} : store) /\
  exists n, 1 <= n <= size ({[js "a-Export"]} : store) + 1 /\
    fst (createUniqueExportFolder (js "a") {[js "a-Export"]}) =
      suffixed (sanitize_basename (js "a") ++ js "-Export") n.
Proof.
  assert (Hin : sanitize_basename (js "a") ++ js "-Export" ∈ ({[js "a-Export"]} : store))
    by (apply elem_of_singleton; reflexivity).
  split; [exact Hin|].
  exact (createUniqueExportFolder_probe_bound (js "a") {[js "a-Export"]} Hin).
Defined.

Lemma embedSingleImage_frame_witness :
  embedSingleImage vault_host 0
    ({| img_attrs := [(js "src", js "pic.png"); (js "width", js "50")];
        img_style := [(js "color", js "red")] |}, []) =
    (Some tt,
     ({| img_attrs := [(js "src", js "data:image/png;base64,AA=="); (js "width", js "50")];
         img_style := [(js "color", js "red")] |},
      [EvGetAttr (js "src"); EvGetAttr (js "data-is-embed");
       EvReadBinary (js "pic.png");
       EvSetAttr (js "src") (js "data:image/png;base64,AA==");
       EvRemoveAttr (js "srcset"); EvRemoveAttr (js "data-src");
       EvRemoveAttr (js "data-is-embed"); EvRemoveAttr (js "sizes")])) /\
  get_attr (js "width") [(js "src", js "data:image/png;base64,AA=="); (js "width", js "50")] =
    get_attr (js "width") [(js "src", js "pic.png"); (js "width", js "50")].
Proof.
  assert (E : embedSingleImage vault_host 0
    ({| img_attrs := [(js "src", js "pic.png"); (js "width", js "50")];
        img_style := [(js "color", js "red")] |}, []) =
    (Some tt,
     ({| img_attrs := [(js "src", js "data:image/png;base64,AA=="); (js "width", js "50")];
         img_style := [(js "color", js "red")] |},
      [EvGetAttr (js "src"); EvGetAttr (js "data-is-embed");
       EvReadBinary (js "pic.png");
       EvSetAttr (js "src") (js "data:image/png;base64,AA==");
       EvRemoveAttr (js "srcset"); EvRemoveAttr (js "data-src");
       EvRemoveAttr (js "data-is-embed"); EvRemoveAttr (js "sizes")])))
    by (vm_compute; reflexivity).
  split; [exact E|].
  apply (proj1 (embedSingleImage_frame _ _ _ _ _ _ E)). vm_compute. set_solver.
Defined.


Lemma legacy_processImage_spec_witness :
  Legacy.processImage empty_type_host 0
    ({| img_attrs := [(js "src", js "http://example.com/a.png")]; img_style := [] |}, []) =
    (Some tt,
     ({| img_attrs := [(js "src", js "data:image/jpeg;base64,AA==")]; img_style := [] |},
      [EvGetAttr (js "src"); EvFetch (js "http://example.com/a.png");
       EvSetAttr (js "src") (js "data:image/jpeg;base64,AA==")])) /\
  length (List.filter is_fetch
    [EvGetAttr (js "src"); EvFetch (js "http://example.com/a.png");
     EvSetAttr (js "src") (js "data:image/jpeg;base64,AA==")]) <= 1.
Proof.
  assert (E : Legacy.processImage empty_type_host 0
    ({| img_attrs := [(js "src", js "http://example.com/a.png")]; img_style := [] |}, []) =
    (Some tt,
     ({| img_attrs := [(js "src", js "data:image/jpeg;base64,AA==")]; img_style := [] |},
      [EvGetAttr (js "src"); EvFetch (js "http://example.com/a.png");
       EvSetAttr (js "src") (js "data:image/jpeg;base64,AA==")])))
    by (vm_compute; reflexivity).
  split; [exact E|].
  exact (proj1 (proj2 (proj2 (proj2 (legacy_processImage_spec _ _ _ _ _ _ E))))).
Defined.

Lemma legacy_processImage_outcome_witness :
  Legacy.processImage offline_host 0
    ({| img_attrs := [(js "src", js "http://example.com/a.png")]; img_style := [] |}, []) =
    (Some tt,
     ({| img_attrs := [(js "src", js "http://example.com/a.png");
                       (js "alt", js "[Image Load Failed]")]; img_style := [] |},
      [EvGetAttr (js "src"); EvFetch (js "http://example.com/a.png");
       EvSetAttr (js "alt") (js "[Image Load Failed]")])) /\
  [(js "src", js "http://example.com/a.png"); (js "alt", js "[Image Load Failed]")] =
    set_attr (js "alt") (js "[Image Load Failed]") [(js "src", js "http://example.com/a.png")].
Proof.
  assert (E : Legacy.processImage offline_host 0
    ({| img_attrs := [(js "src", js "http://example.com/a.png")]; img_style := [] |}, []) =
    (Some tt,
     ({| img_attrs := [(js "src", js "http://example.com/a.png");
                       (js "alt", js "[Image Load Failed]")]; img_style := [] |},
      [EvGetAttr (js "src"); EvFetch (js "http://example.com/a.png");
       EvSetAttr (js "alt") (js "[Image Load Failed]")])))
    by (vm_compute; reflexivity).
  split; [exact E|].
  exact (legacy_processImage_outcome _ _ _ _ _ _ (js "http://example.com/a.png") E
           ltac:(simpl; tauto)).
Defined.

Lemma legacy_generatePdf_notices_witness :
  (forall x, x ∈ body {| body := [3]; next_node := 4; notices := [] |} ->
     x < next_node {| body := [3]; next_node := 4; notices := [] |}) /\
  Legacy.generatePdf (Some pic) (fun _ => false) (Some (js "Note.html"))
    {| body := [3]; next_node := 4; notices := [] |} =
    (Some tt, {| body := [3]; next_node := 5;
                 notices := [js "Generating HTML for printing...";
                             js "Exported: Note.html"] |}).
Proof.
  assert (Hfresh : forall x, x ∈ body {| body := [3]; next_node := 4; notices := [] |} ->
     x < next_node {| body := [3]; next_node := 4; notices := [] |}).
  { intros x Hx. cbn [body next_node] in *. apply list_elem_of_singleton in Hx. lia. }
  split; [exact Hfresh|].
  pose proof (legacy_generatePdf_notices (Some pic) (fun _ => false) (Some (js "Note.html"))
                _ Hfresh) as Hn.
  destruct (Legacy.generatePdf _ _ _ _) as [r p'] eqn:E.
  destruct Hn as (-> & Hb & Hno). destruct p' as [b nn no]. cbn in Hb, Hno. subst b no.
  f_equal. f_equal. revert E. vm_compute. congruence.
Defined.
